(** * The sound machine of [main.js]: playback registry, timer and combo mode

    A shallow embedding of the [SoundMachine] class.  The object's fields,
    the parts of the browser it talks to (clock, timer table, audio calls,
    console, alert) and the parts of the page it reads and writes (tiles,
    check boxes, timer display) are the components of one record [State];
    every method is a function on it.

    Conventions.
    - A plain JS object used with [Object.keys] is a list of (key, value)
      pairs in insertion order ([Obj]).
    - Numbers are integers: [Date.now()] and minute counts are [Z]
      (milliseconds stay far below 2^53).
    - The page ([index.html]) is taken to contain the chrome the code
      dereferences without a null test: [#timer-display], [#time-remaining],
      [#combo-settings] and the timer button with [data-time="0"].  One sound
      tile exists per [data-sound] value in [tiles], and only sound tiles
      carry a [data-sound] attribute.  The combo check boxes are a finite
      map, since [stopCombo] tests them for presence; reading [.checked] of
      an absent one is the [TypeError] that aborts [applyComboSettings].
    - Property names inherited from [Object.prototype] are not category
      identifiers; every value stored in [activeSounds] is an array. *)

From stdpp Require Import gmap strings list pretty.

Open Scope Z_scope.

(** ** Plain objects with string keys, in insertion order *)

Module Obj.
Section obj.
Context {V : Type}.

(** [o[k]] *)
Fixpoint get (k : string) (o : list (string * V)) : option V :=
  match o with
  | [] => None
  | (k', v) :: o' => if decide (k = k') then Some v else get k o'
  end.

(** [o[k] = v]: an existing key keeps its place, a new one goes last. *)
Fixpoint set (k : string) (v : V) (o : list (string * V)) : list (string * V) :=
  match o with
  | [] => [(k, v)]
  | (k', v') :: o' =>
      if decide (k = k') then (k, v) :: o' else (k', v') :: set k v o'
  end.

(** [delete o[k]] *)
Fixpoint del (k : string) (o : list (string * V)) : list (string * V) :=
  match o with
  | [] => []
  | (k', v) :: o' => if decide (k = k') then del k o' else (k', v) :: del k o'
  end.

(** [Object.keys(o)] and [Object.values(o)] *)
Definition keys (o : list (string * V)) : list string := o.*1.
Definition values (o : list (string * V)) : list V := o.*2.
End obj.
End Obj.

(** ** Handles, effects, callbacks *)

(** What a builder stores in [activeSounds]: nodes that have [stop]
    (buffer sources, oscillators), nodes that only have [disconnect]
    (filters, gains, the compressor), and the numbers [setInterval]
    returned, which have neither. *)
Inductive node :=
| Source (name : string)
| Stage (name : string)
| IntervalId (id : positive).

(** Calls that leave the object: audio, console, alert.  [StopAll] marks
    each entry into [stopAllSounds]. *)
Inductive event :=
| Resume
| Start (name : string)
| Stop (name : string)
| Disconnect (name : string)
| Transient (name : string)
| Warn (msg arg : string)
| Alert (msg : string)
| StopAll.

(** The closures handed to [setInterval] and [setTimeout]. *)
Inductive callback :=
| Countdown
| RaindropScheduler
| BirdScheduler
| WindScheduler
| PlayNextNote.

Global Instance event_eq_dec : EqDecision event.
Proof. solve_decision. Defined.

Global Instance callback_eq_dec : EqDecision callback.
Proof. solve_decision. Defined.

(** ** State *)

Record State := mkState {
  (* fields of the SoundMachine object *)
  activeSounds : list (string * list node);
  timerDuration : Z;
  timerEndTime : Z;
  timerInterval : option positive;
  currentSound : option string;
  comboSounds : list (string * bool);
  (* browser *)
  now : Z;                           (* Date.now() *)
  suspended : bool;                  (* audioContext.state === 'suspended' *)
  timers : gmap positive callback;   (* live setInterval / setTimeout entries *)
  nextTimer : positive;              (* the id the next one gets *)
  trace : list event;
  (* page *)
  tiles : gset string;               (* data-sound values of the sound tiles *)
  playing : gset string;             (* tiles with class 'playing' *)
  checkboxes : gmap string bool;     (* element id -> checked *)
  comboSettingsHidden : bool;        (* #combo-settings has class 'd-none' *)
  timerDisplayHidden : bool;         (* #timer-display has class 'd-none' *)
  activeTimerBtn : gset Z;           (* data-time of the buttons with 'active' *)
  timeRemaining : string             (* text of #time-remaining *)
}.

Definition set_activeSounds (v : list (string * list node)) (w : State) : State :=
  mkState v (timerDuration w) (timerEndTime w) (timerInterval w)
    (currentSound w) (comboSounds w) (now w) (suspended w) (timers w)
    (nextTimer w) (trace w) (tiles w) (playing w) (checkboxes w)
    (comboSettingsHidden w) (timerDisplayHidden w) (activeTimerBtn w)
    (timeRemaining w).

Definition set_timerDuration (v : Z) (w : State) : State :=
  mkState (activeSounds w) v (timerEndTime w) (timerInterval w)
    (currentSound w) (comboSounds w) (now w) (suspended w) (timers w)
    (nextTimer w) (trace w) (tiles w) (playing w) (checkboxes w)
    (comboSettingsHidden w) (timerDisplayHidden w) (activeTimerBtn w)
    (timeRemaining w).

Definition set_timerEndTime (v : Z) (w : State) : State :=
  mkState (activeSounds w) (timerDuration w) v (timerInterval w)
    (currentSound w) (comboSounds w) (now w) (suspended w) (timers w)
    (nextTimer w) (trace w) (tiles w) (playing w) (checkboxes w)
    (comboSettingsHidden w) (timerDisplayHidden w) (activeTimerBtn w)
    (timeRemaining w).

Definition set_timerInterval (v : option positive) (w : State) : State :=
  mkState (activeSounds w) (timerDuration w) (timerEndTime w) v
    (currentSound w) (comboSounds w) (now w) (suspended w) (timers w)
    (nextTimer w) (trace w) (tiles w) (playing w) (checkboxes w)
    (comboSettingsHidden w) (timerDisplayHidden w) (activeTimerBtn w)
    (timeRemaining w).

Definition set_currentSound (v : option string) (w : State) : State :=
  mkState (activeSounds w) (timerDuration w) (timerEndTime w)
    (timerInterval w) v (comboSounds w) (now w) (suspended w) (timers w)
    (nextTimer w) (trace w) (tiles w) (playing w) (checkboxes w)
    (comboSettingsHidden w) (timerDisplayHidden w) (activeTimerBtn w)
    (timeRemaining w).

Definition set_comboSounds (v : list (string * bool)) (w : State) : State :=
  mkState (activeSounds w) (timerDuration w) (timerEndTime w)
    (timerInterval w) (currentSound w) v (now w) (suspended w) (timers w)
    (nextTimer w) (trace w) (tiles w) (playing w) (checkboxes w)
    (comboSettingsHidden w) (timerDisplayHidden w) (activeTimerBtn w)
    (timeRemaining w).

Definition set_now (v : Z) (w : State) : State :=
  mkState (activeSounds w) (timerDuration w) (timerEndTime w)
    (timerInterval w) (currentSound w) (comboSounds w) v (suspended w)
    (timers w) (nextTimer w) (trace w) (tiles w) (playing w) (checkboxes w)
    (comboSettingsHidden w) (timerDisplayHidden w) (activeTimerBtn w)
    (timeRemaining w).

Definition set_timers (v : gmap positive callback) (w : State) : State :=
  mkState (activeSounds w) (timerDuration w) (timerEndTime w)
    (timerInterval w) (currentSound w) (comboSounds w) (now w) (suspended w) v
    (nextTimer w) (trace w) (tiles w) (playing w) (checkboxes w)
    (comboSettingsHidden w) (timerDisplayHidden w) (activeTimerBtn w)
    (timeRemaining w).

Definition set_nextTimer (v : positive) (w : State) : State :=
  mkState (activeSounds w) (timerDuration w) (timerEndTime w)
    (timerInterval w) (currentSound w) (comboSounds w) (now w) (suspended w)
    (timers w) v (trace w) (tiles w) (playing w) (checkboxes w)
    (comboSettingsHidden w) (timerDisplayHidden w) (activeTimerBtn w)
    (timeRemaining w).

Definition set_trace (v : list event) (w : State) : State :=
  mkState (activeSounds w) (timerDuration w) (timerEndTime w)
    (timerInterval w) (currentSound w) (comboSounds w) (now w) (suspended w)
    (timers w) (nextTimer w) v (tiles w) (playing w) (checkboxes w)
    (comboSettingsHidden w) (timerDisplayHidden w) (activeTimerBtn w)
    (timeRemaining w).

Definition set_playing (v : gset string) (w : State) : State :=
  mkState (activeSounds w) (timerDuration w) (timerEndTime w)
    (timerInterval w) (currentSound w) (comboSounds w) (now w) (suspended w)
    (timers w) (nextTimer w) (trace w) (tiles w) v (checkboxes w)
    (comboSettingsHidden w) (timerDisplayHidden w) (activeTimerBtn w)
    (timeRemaining w).

Definition set_checkboxes (v : gmap string bool) (w : State) : State :=
  mkState (activeSounds w) (timerDuration w) (timerEndTime w)
    (timerInterval w) (currentSound w) (comboSounds w) (now w) (suspended w)
    (timers w) (nextTimer w) (trace w) (tiles w) (playing w) v
    (comboSettingsHidden w) (timerDisplayHidden w) (activeTimerBtn w)
    (timeRemaining w).

Definition set_comboSettingsHidden (v : bool) (w : State) : State :=
  mkState (activeSounds w) (timerDuration w) (timerEndTime w)
    (timerInterval w) (currentSound w) (comboSounds w) (now w) (suspended w)
    (timers w) (nextTimer w) (trace w) (tiles w) (playing w) (checkboxes w) v
    (timerDisplayHidden w) (activeTimerBtn w) (timeRemaining w).

Definition set_timerDisplayHidden (v : bool) (w : State) : State :=
  mkState (activeSounds w) (timerDuration w) (timerEndTime w)
    (timerInterval w) (currentSound w) (comboSounds w) (now w) (suspended w)
    (timers w) (nextTimer w) (trace w) (tiles w) (playing w) (checkboxes w)
    (comboSettingsHidden w) v (activeTimerBtn w) (timeRemaining w).

Definition set_activeTimerBtn (v : gset Z) (w : State) : State :=
  mkState (activeSounds w) (timerDuration w) (timerEndTime w)
    (timerInterval w) (currentSound w) (comboSounds w) (now w) (suspended w)
    (timers w) (nextTimer w) (trace w) (tiles w) (playing w) (checkboxes w)
    (comboSettingsHidden w) (timerDisplayHidden w) v (timeRemaining w).

Definition set_timeRemaining (v : string) (w : State) : State :=
  mkState (activeSounds w) (timerDuration w) (timerEndTime w)
    (timerInterval w) (currentSound w) (comboSounds w) (now w) (suspended w)
    (timers w) (nextTimer w) (trace w) (tiles w) (playing w) (checkboxes w)
    (comboSettingsHidden w) (timerDisplayHidden w) (activeTimerBtn w) v.


Definition log (e : event) (w : State) : State := set_trace (trace w ++ [e]) w.

(** ** Browser timers *)

(** [setInterval] and [setTimeout] draw their ids from one counter; ids
    are positive, so a stored id is always truthy. *)
Definition setInterval (cb : callback) (w : State) : positive * State :=
  let id := nextTimer w in
  (id, set_nextTimer (id + 1)%positive (set_timers (<[id := cb]> (timers w)) w)).

Definition setTimeout (cb : callback) (w : State) : positive * State :=
  setInterval cb w.

Definition clearInterval (id : positive) (w : State) : State :=
  set_timers (delete id (timers w)) w.

(** ** The constructor

    [new SoundMachine()] in a browser whose clock reads [t0], on a page with
    the given tiles and check boxes, in its initial layout: no tile
    playing, the combo panel and the timer display hidden, the 0 button
    active.  [init] creates the audio context, whose suspension is the
    browser's business. *)
Definition constructor (page_tiles : gset string) (boxes : gmap string bool)
    (susp : bool) (t0 : Z) : State :=
  {| activeSounds := [];
     timerDuration := 0;
     timerEndTime := 0;
     timerInterval := None;
     currentSound := None;
     comboSounds :=
       [("white-noise", false); ("pink-noise", false); ("brown-noise", false);
        ("heartbeat", false); ("ocean", false); ("rain", false);
        ("snow", false); ("forest", false); ("lullaby", false)];
     now := t0;
     suspended := susp;
     timers := ∅;
     nextTimer := 1%positive;
     trace := [];
     tiles := page_tiles;
     playing := ∅;
     checkboxes := boxes;
     comboSettingsHidden := true;
     timerDisplayHidden := true;
     activeTimerBtn := {[0]};
     timeRemaining := "" |}.

(** ** Stopping *)

(** One step of the [forEach] in [stopSound]: [stop] if the node has it,
    else [disconnect] if it has that, else nothing. *)
Definition stopNode (n : node) (w : State) : State :=
  match n with
  | Source name => log (Stop name) w
  | Stage name => log (Disconnect name) w
  | IntervalId _ => w
  end.

Definition stopSound (soundType : string) (w : State) : State :=
  match Obj.get soundType (activeSounds w) with
  | Some nodes =>
      let w := foldl (λ w n, stopNode n w) w nodes in
      set_activeSounds (Obj.del soundType (activeSounds w)) w
  | None => w
  end.

Definition clearTimer (w : State) : State :=
  let w := match timerInterval w with
           | Some id => set_timerInterval None (clearInterval id w)
           | None => w
           end in
  let w := set_timerDisplayHidden true w in
  set_activeTimerBtn {[0]} w.

Definition stopAllSounds (w : State) : State :=
  let w := log StopAll w in
  let w := foldl (λ w soundType, stopSound soundType w) w
                 (Obj.keys (activeSounds w)) in
  clearTimer w.

(** ** The timer *)

Definition padStart2 (s : string) : string :=
  if decide (String.length s < 2)%nat then "0" +:+ s else s.

Definition updateTimerDisplay (w : State) : State :=
  let remaining := Z.max 0 (timerEndTime w - now w) in
  let minutes := remaining `div` (60 * 1000) in
  let seconds := (remaining `mod` (60 * 1000)) `div` 1000 in
  set_timeRemaining
    (padStart2 (pretty minutes) +:+ ":" +:+ padStart2 (pretty seconds)) w.

(** The body of the closure that [setTimer] hands to [setInterval]. *)
Definition countdownTick (w : State) : State :=
  let w := updateTimerDisplay w in
  if bool_decide (timerEndTime w ≤ now w) then
    let w := stopAllSounds w in
    let w := set_playing ∅ w in
    clearTimer w
  else w.

Definition setTimer (minutes : Z) (w : State) : State :=
  let w := clearTimer w in
  if bool_decide (minutes = 0) then set_timerDisplayHidden true w
  else
    let w := set_timerDuration (minutes * 60 * 1000) w in
    let w := set_timerEndTime (now w + timerDuration w) w in
    let w := set_timerDisplayHidden false w in
    let w := updateTimerDisplay w in
    let '(id, w) := setInterval Countdown w in
    set_timerInterval (Some id) w.

(** The click handler of a timer button. *)
Definition clickTimerButton (minutes : Z) (w : State) : State :=
  set_activeTimerBtn {[minutes]} (setTimer minutes w).

(** ** The signal graph builders

    Each one starts its generators, registers its schedulers and stores
    the array of handles under its own key. *)

Definition playWhiteNoise (w : State) : State :=
  let w := log (Start "whiteNoise") w in
  set_activeSounds
    (Obj.set "white-noise" [Source "whiteNoise"; Stage "filter"]
       (activeSounds w)) w.

Definition playPinkNoise (w : State) : State :=
  let w := log (Start "pinkNoise") w in
  set_activeSounds
    (Obj.set "pink-noise" [Source "pinkNoise"; Stage "filter"]
       (activeSounds w)) w.

Definition playBrownNoise (w : State) : State :=
  let w := log (Start "brownNoise") w in
  set_activeSounds
    (Obj.set "brown-noise" [Source "brownNoise"; Stage "filter"]
       (activeSounds w)) w.

Definition playHeartbeat (w : State) : State :=
  let w := log (Start "heartbeatLFO") w in
  let w := log (Start "heartbeatSound") w in
  set_activeSounds
    (Obj.set "heartbeat"
       [Source "heartbeatLFO"; Source "heartbeatSound"; Stage "heartbeatGain";
        Stage "heartbeatLFOGain"; Stage "heartbeatFilter"]
       (activeSounds w)) w.

Definition playOceanWaves (w : State) : State :=
  let w := log (Start "oceanBase") w in
  let w := log (Start "waveLFO") w in
  set_activeSounds
    (Obj.set "ocean"
       [Source "oceanBase"; Stage "oceanFilter"; Stage "waveGain";
        Source "waveLFO"; Stage "waveModulationGain"]
       (activeSounds w)) w.

(** [playNextNote]: the stepper of the lullaby re-arms itself only while
    the category is registered. *)
Definition playNextNote (w : State) : State :=
  match Obj.get "lullaby" (activeSounds w) with
  | None => w
  | Some _ => (setTimeout PlayNextNote w).2
  end.

Definition playLullaby (w : State) : State :=
  let w := log (Start "noteOsc") w in
  let w := set_activeSounds
             (Obj.set "lullaby" [Source "noteOsc"; Stage "noteGain"]
                (activeSounds w)) w in
  playNextNote w.

Definition playRain (w : State) : State :=
  let w := log (Start "rainBase") w in
  let '(raindropScheduler, w) := setInterval RaindropScheduler w in
  set_activeSounds
    (Obj.set "rain"
       [Source "rainBase"; Stage "rainFilter"; Stage "compressor";
        Stage "rainGain"; IntervalId raindropScheduler]
       (activeSounds w)) w.

Definition playSnow (w : State) : State :=
  let w := log (Start "snowBase") w in
  let w := log (Start "windLFO") w in
  set_activeSounds
    (Obj.set "snow"
       [Source "snowBase"; Stage "snowFilter"; Stage "secondFilter";
        Stage "snowGain"; Source "windLFO"; Stage "windLFOGain"]
       (activeSounds w)) w.

Definition playForest (w : State) : State :=
  let w := log (Start "forestBase") w in
  let '(birdScheduler, w) := setInterval BirdScheduler w in
  let '(windScheduler, w) := setInterval WindScheduler w in
  set_activeSounds
    (Obj.set "forest"
       [Source "forestBase"; Stage "forestFilter"; Stage "forestGain";
        IntervalId birdScheduler; IntervalId windScheduler]
       (activeSounds w)) w.

(** ** Playing *)

(** The [switch] of [playSound]: the key a builder stores under and the
    builder; [None] is the [default] branch. *)
Definition builder (soundType : string) : option (State → State) :=
  if decide (soundType = "white-noise") then Some playWhiteNoise
  else if decide (soundType = "pink-noise") then Some playPinkNoise
  else if decide (soundType = "brown-noise") then Some playBrownNoise
  else if decide (soundType = "heartbeat") then Some playHeartbeat
  else if decide (soundType = "ocean") then Some playOceanWaves
  else if decide (soundType = "rain") then Some playRain
  else if decide (soundType = "snow") then Some playSnow
  else if decide (soundType = "forest") then Some playForest
  else if decide (soundType = "lullaby") then Some playLullaby
  else None.

Definition playSound (soundType : string) (w : State) : State :=
  let w := if suspended w then log Resume w else w in
  match builder soundType with
  | Some play =>
      let w := play w in
      if decide (soundType ∈ tiles w)
      then set_playing ({[soundType]} ∪ playing w) w
      else w
  | None => log (Warn "Unknown sound type:" soundType) w
  end.

(** ** Combo mode *)

Definition stopCombo (w : State) : State :=
  let w := foldl (λ w soundType,
                    match Obj.get soundType (comboSounds w) with
                    | Some true => stopSound soundType w
                    | _ => w
                    end) w (Obj.keys (comboSounds w)) in
  let w := foldl (λ w soundType,
                    let id := "combo-" +:+ soundType in
                    let w := match checkboxes w !! id with
                             | Some _ =>
                                 set_checkboxes (<[id := false]> (checkboxes w)) w
                             | None => w
                             end in
                    set_comboSounds (Obj.set soundType false (comboSounds w)) w)
                 w (Obj.keys (comboSounds w)) in
  let w := set_playing ∅ w in
  set_currentSound None w.

Definition emptySelectionMessage : string :=
  "Please select at least one sound to combine.".

(** [None] is the [TypeError] of reading [.checked] of a check box the
    page does not have. *)
Definition applyComboSettings (w : State) : option State :=
  let w := stopAllSounds w in
  let w := set_playing ∅ w in
  white ← checkboxes w !! "combo-white-noise";
  brown ← checkboxes w !! "combo-brown-noise";
  heartbeat ← checkboxes w !! "combo-heartbeat";
  ocean ← checkboxes w !! "combo-ocean";
  rain ← checkboxes w !! "combo-rain";
  snow ← checkboxes w !! "combo-snow";
  forest ← checkboxes w !! "combo-forest";
  lullaby ← checkboxes w !! "combo-lullaby";
  let w := set_comboSounds
             [("white-noise", white); ("brown-noise", brown);
              ("heartbeat", heartbeat); ("ocean", ocean); ("rain", rain);
              ("snow", snow); ("forest", forest); ("lullaby", lullaby)] w in
  let hasSelectedSounds :=
    existsb (λ val, bool_decide (val = true)) (Obj.values (comboSounds w)) in
  Some (if hasSelectedSounds then
          let w := foldl (λ w sound,
                            match Obj.get sound (comboSounds w) with
                            | Some true => playSound sound w
                            | _ => w
                            end) w (Obj.keys (comboSounds w)) in
          set_comboSettingsHidden true w
        else log (Alert emptySelectionMessage) w).

(** ** Tiles *)

Definition toggleSound (soundType tile : string) (w : State) : State :=
  if decide (tile ∈ playing w) then
    let w := if decide (soundType = "combo") then stopCombo w
             else stopSound soundType w in
    set_playing (playing w ∖ {[tile]}) w
  else
    let w := if decide (soundType ≠ "combo")
             then set_playing ∅ (stopAllSounds w)
             else w in
    if decide (soundType = "combo") then set_comboSettingsHidden false w
    else set_currentSound (Some soundType) (playSound soundType w).

(** The click handler of a sound tile, [soundType] being the tile's
    [data-sound]. *)
Definition clickTile (soundType : string) (w : State) : State :=
  if decide (soundType = "combo")
  then set_comboSettingsHidden (negb (comboSettingsHidden w)) w
  else toggleSound soundType soundType w.

(** ** Timer callbacks

    The browser runs the callback of a live timer entry; [chance] is the
    outcome of the scheduler's [Math.random()] test. *)

Definition schedulerTick (id : positive) (category burst : string)
    (chance : bool) (w : State) : State :=
  match Obj.get category (activeSounds w) with
  | None => clearInterval id w
  | Some _ => if chance then log (Transient burst) w else w
  end.

Definition fire (id : positive) (chance : bool) (w : State) : State :=
  match timers w !! id with
  | None => w
  | Some Countdown => countdownTick w
  | Some RaindropScheduler => schedulerTick id "rain" "drop" chance w
  | Some BirdScheduler => schedulerTick id "forest" "birdChirp" chance w
  | Some WindScheduler => schedulerTick id "forest" "windRustle" chance w
  | Some PlayNextNote => playNextNote (clearInterval id w)
  end.

(** A callback run when the clock reads [t]. *)
Record tick := Tick { at_time : Z; timer_id : positive; random_hit : bool }.

Definition runTick (k : tick) (w : State) : State :=
  fire (timer_id k) (random_hit k) (set_now (at_time k) w).

Definition runTicks (ks : list tick) (w : State) : State :=
  foldl (λ w k, runTick k w) w ks.

(** Whole seconds passing with only the countdown running: the interval
    [id] comes due once per 1000 ms. *)
Fixpoint advanceSeconds (n : nat) (id : positive) (w : State) : State :=
  match n with
  | O => w
  | S n' => advanceSeconds n' id (runTick (Tick (now w + 1000) id false) w)
  end.

(** ** What a trace says *)

(** The events released by stopping an array of handles. *)
Definition stopEvent (n : node) : list event :=
  match n with
  | Source name => [Stop name]
  | Stage name => [Disconnect name]
  | IntervalId _ => []
  end.

Definition stopEvents (nodes : list node) : list event := nodes ≫= stopEvent.

(** The events of stopping the keys [ks], in order, on registry [o]. *)
Fixpoint stopTrace (ks : list string) (o : list (string * list node)) : list event :=
  match ks with
  | [] => []
  | k :: ks' =>
      match Obj.get k o with
      | Some nodes => stopEvents nodes
      | None => []
      end ++ stopTrace ks' (Obj.del k o)
  end.

(** Generators started, and entries into [stopAllSounds]. *)
Definition started (tr : list event) : list string :=
  omap (λ e, match e with Start name => Some name | _ => None end) tr.

Definition stopAllCount (tr : list event) : nat :=
  length (filter (λ e, e = StopAll) tr).

(** The timer is armed when a countdown interval is live. *)
Definition armed (w : State) : Prop :=
  ∃ id, timers w !! id = Some Countdown.

(** The countdown entries of the timer table belong to [timerInterval],
    and every live id was handed out already. *)
Definition timers_ok (w : State) : Prop :=
  (∀ id cb, timers w !! id = Some cb → (id < nextTimer w)%positive) ∧
  (∀ id, timers w !! id = Some Countdown → timerInterval w = Some id).

(** The eight check boxes that [applyComboSettings] reads, with their
    values. *)
Definition boxesRead (w : State)
    (white brown heartbeat ocean rain snow forest lullaby : bool) : Prop :=
  checkboxes w !! "combo-white-noise" = Some white ∧
  checkboxes w !! "combo-brown-noise" = Some brown ∧
  checkboxes w !! "combo-heartbeat" = Some heartbeat ∧
  checkboxes w !! "combo-ocean" = Some ocean ∧
  checkboxes w !! "combo-rain" = Some rain ∧
  checkboxes w !! "combo-snow" = Some snow ∧
  checkboxes w !! "combo-forest" = Some forest ∧
  checkboxes w !! "combo-lullaby" = Some lullaby.

(** ** Sessions

    What the user and the browser do to the machine while no combination
    is committed: tile clicks, timer buttons, timer callbacks. *)
Inductive intent :=
| ClickTile (soundType : string)
| ClickTimer (minutes : Z)
| Callback (k : tick).

Definition step (i : intent) (w : State) : State :=
  match i with
  | ClickTile soundType => clickTile soundType w
  | ClickTimer minutes => clickTimerButton minutes w
  | Callback k => runTick k w
  end.

Definition session (intents : list intent) (w : State) : State :=
  foldl (λ w i, step i w) w intents.

(** ** A page to run the model on *)

Definition comboNames : list string :=
  ["white-noise"; "brown-noise"; "heartbeat"; "ocean"; "rain"; "snow";
   "forest"; "lullaby"].

Definition samplePage : gset string :=
  list_to_set ("pink-noise" :: "combo" :: comboNames).

Definition sampleBoxes (checked : list string) : gmap string bool :=
  list_to_map
    ((λ k, ("combo-" +:+ k, bool_decide (k ∈ checked))) <$> comboNames).

(** A new machine, and the same one after a click on the rain tile. *)
Definition freshMachine : State :=
  constructor samplePage (sampleBoxes []) false 0.

Definition rainPlaying : State := clickTile "rain" freshMachine.

(** The ocean playing and the rain and forest boxes ticked; a new machine
    with the rain box ticked. *)
Definition oceanPlaying : State := clickTile "ocean" freshMachine.

Definition rainForestTicked : State :=
  set_checkboxes (sampleBoxes ["rain"; "forest"]) oceanPlaying.

Definition rainTicked : State :=
  set_checkboxes (sampleBoxes ["rain"]) freshMachine.

(** The states two commits end in: with the rain box ticked on a new
    machine, and with no box ticked while the rain plays. *)
Definition rainCommitted : State :=
  default rainTicked (applyComboSettings rainTicked).

Definition emptyCommitted : State :=
  default rainPlaying (applyComboSettings rainPlaying).

(** A page that also has a ticked pink-noise box, and the commit on it. *)
Definition pinkTicked : State :=
  set_checkboxes (<["combo-pink-noise" := true]> (sampleBoxes ["rain"]))
    freshMachine.

Definition pinkCommitted : State :=
  default pinkTicked (applyComboSettings pinkTicked).

(** ** Frames *)

(** What starting a sound never touches. *)
Definition sound_frame (w w' : State) : Prop :=
  timerDuration w' = timerDuration w ∧ timerEndTime w' = timerEndTime w ∧
  timerInterval w' = timerInterval w ∧ currentSound w' = currentSound w ∧
  comboSounds w' = comboSounds w ∧ now w' = now w ∧
  suspended w' = suspended w ∧ tiles w' = tiles w ∧
  checkboxes w' = checkboxes w ∧
  comboSettingsHidden w' = comboSettingsHidden w ∧
  timerDisplayHidden w' = timerDisplayHidden w ∧
  activeTimerBtn w' = activeTimerBtn w ∧ timeRemaining w' = timeRemaining w.

(** The timer table gained at most schedulers under new ids. *)
Definition timers_grow (w w' : State) : Prop :=
  (nextTimer w ≤ nextTimer w')%positive ∧
  ∀ id, timers w' !! id = timers w !! id ∨
        ((nextTimer w ≤ id < nextTimer w')%positive ∧
         is_Some (timers w' !! id) ∧ timers w' !! id ≠ Some Countdown).

(** A step that leaves the countdown and the registry alone. *)
Definition quiet (w w' : State) : Prop :=
  timerInterval w' = timerInterval w ∧ timerEndTime w' = timerEndTime w ∧
  now w' = now w ∧ activeSounds w' = activeSounds w ∧
  stopAllCount (trace w') = stopAllCount (trace w) ∧
  (∀ id, timers w' !! id = Some Countdown ↔ timers w !! id = Some Countdown) ∧
  (timers_ok w → timers_ok w').

(** The ticks of [advanceSeconds n id] from clock reading [t]. *)
Definition secondTicks (n : nat) (id : positive) (t : Z) : list tick :=
  (λ i : nat, Tick (t + 1000 * Z.of_nat i) id false) <$> seq 1 n.

(** The two states of the timer controller. *)
Definition armedAt (id : positive) (deadline : Z) (w : State) : Prop :=
  timers_ok w ∧ timerInterval w = Some id ∧
  timers w !! id = Some Countdown ∧ timerEndTime w = deadline.

Definition unarmed (w : State) : Prop :=
  timers_ok w ∧ timerInterval w = None.

(** The tick [k] is the countdown [id] coming due at or after [deadline]. *)
Definition expires (id : positive) (deadline : Z) (k : tick) : Prop :=
  timer_id k = id ∧ deadline ≤ at_time k.

Global Instance expires_dec id deadline k : Decision (expires id deadline k).
Proof. unfold expires. apply _. Defined.

(** The selection object that [applyComboSettings] builds. *)
Definition selectionOf
    (white brown heartbeat ocean rain snow forest lullaby : bool)
    : list (string * bool) :=
  [("white-noise", white); ("brown-noise", brown); ("heartbeat", heartbeat);
   ("ocean", ocean); ("rain", rain); ("snow", snow); ("forest", forest);
   ("lullaby", lullaby)].

(** The keys of a selection that hold [true], in key order. *)
Definition selected (sel : list (string * bool)) : list string :=
  filter (λ k, Obj.get k sel = Some true) (Obj.keys sel).

(** What a commit makes of the state [w0] reached after its teardown,
    given the selection [sel] it has read. *)
Definition commitResult (sel : list (string * bool)) (w0 : State) : State :=
  let w := set_comboSounds sel w0 in
  if existsb (λ val, bool_decide (val = true)) (Obj.values sel)
  then set_comboSettingsHidden true
         (foldl (λ w sound, playSound sound w) w (selected sel))
  else log (Alert emptySelectionMessage) w.

(** ** The apply button and whole sessions

    The click handler of the apply button calls [applyComboSettings]; a
    [TypeError] ends the handler with the teardown done and the
    selection not assigned. *)
Definition clickApplyCombo (w : State) : State :=
  match applyComboSettings w with
  | Some w' => w'
  | None => set_playing ∅ (stopAllSounds w)
  end.

Inductive action :=
| Intent (i : intent)
| ApplyCombo.

Definition perform (a : action) (w : State) : State :=
  match a with
  | Intent i => step i w
  | ApplyCombo => clickApplyCombo w
  end.

Definition performAll (actions : list action) (w : State) : State :=
  foldl (λ w a, perform a w) w actions.

(** ** Reading the page and the trace *)

(** The text [updateTimerDisplay] writes for [remaining] milliseconds,
    and the clock text of a number of seconds. *)
Definition displayText (remaining : Z) : string :=
  padStart2 (pretty (remaining `div` (60 * 1000))) +:+ ":" +:+
  padStart2 (pretty ((remaining `mod` (60 * 1000)) `div` 1000)).

Definition clockText (seconds : Z) : string :=
  padStart2 (pretty (seconds `div` 60)) +:+ ":" +:+
  padStart2 (pretty (seconds `mod` 60)).

(** Generators stopped, and the generators among an array of handles. *)
Definition stopped (tr : list event) : list string :=
  omap (λ e, match e with Stop name => Some name | _ => None end) tr.

Definition sources (nodes : list node) : list string :=
  omap (λ n, match n with Source name => Some name | _ => None end) nodes.

(** The timer display is shown exactly while a countdown is stored, and
    the 0 button is the active one while none is. *)
Definition timer_ui_ok (w : State) : Prop :=
  match timerInterval w with
  | Some _ => timerDisplayHidden w = false
  | None => timerDisplayHidden w = true ∧ activeTimerBtn w = {[0]}
  end.

(** The playing marks are those of the tiles whose category is
    registered. *)
Definition marks_ok (w : State) : Prop :=
  ∀ k, k ∈ playing w ↔ k ∈ tiles w ∧ is_Some (Obj.get k (activeSounds w)).

(** The registry holds categories that have a builder, each once. *)
Definition registry_ok (w : State) : Prop :=
  NoDup (Obj.keys (activeSounds w)) ∧
  ∀ k, k ∈ Obj.keys (activeSounds w) → is_Some (builder k).

(** The combination of rain and forest, committed while the ocean was
    playing. *)
Definition rainForestCommitted : State :=
  default rainForestTicked (applyComboSettings rainForestTicked).

(** What [timer_ui_ok] and [marks_ok] read. *)
Definition timer_view (w : State) : option positive * bool * gset Z :=
  (timerInterval w, timerDisplayHidden w, activeTimerBtn w).

Definition marks_view (w : State)
    : gset string * gset string * list (string * list node) :=
  (playing w, tiles w, activeSounds w).

(** The rain playing on a page that lacks the lullaby box. *)
Definition noLullabyBox : State :=
  set_checkboxes (delete "combo-lullaby" (sampleBoxes [])) rainPlaying.

(** The bodies of the two loops of [stopCombo]. *)
Definition stopSelectedStep (w : State) (soundType : string) : State :=
  match Obj.get soundType (comboSounds w) with
  | Some true => stopSound soundType w
  | _ => w
  end.

Definition uncheckStep (w : State) (soundType : string) : State :=
  let id := "combo-" +:+ soundType in
  let w := match checkboxes w !! id with
           | Some _ => set_checkboxes (<[id := false]> (checkboxes w)) w
           | None => w
           end in
  set_comboSounds (Obj.set soundType false (comboSounds w)) w.

(** * Lemmas *)

(** ** Objects *)

Section obj_lemmas.
Context {V : Type}.
Implicit Types (o : list (string * V)) (k : string).

Lemma get_del_eq k o : Obj.get k (Obj.del k o) = None.
Proof.
  induction o as [|[k' v] o IH]; simpl; [done|].
  case_decide; simpl; [done|]. by rewrite decide_False.
Qed.

Lemma get_del_ne k k' o : k ≠ k' → Obj.get k' (Obj.del k o) = Obj.get k' o.
Proof.
  intros Hne. induction o as [|[k0 v] o IH]; simpl; [done|].
  destruct (decide (k = k0)) as [->|]; simpl.
  - by rewrite decide_False.
  - by rewrite IH.
Qed.

Lemma del_absent k o : Obj.get k o = None → Obj.del k o = o.
Proof.
  induction o as [|[k' v] o IH]; simpl; [done|].
  case_decide; [done|]. intros H'. by rewrite IH.
Qed.

Lemma del_length k o : (length (Obj.del k o) ≤ length o)%nat.
Proof.
  induction o as [|[k' v] o IH]; simpl; [done|].
  case_decide; simpl; lia.
Qed.

Lemma get_set_eq k v o : Obj.get k (Obj.set k v o) = Some v.
Proof.
  induction o as [|[k' v'] o IH]; simpl.
  - by rewrite decide_True.
  - case_decide; simpl; [by rewrite decide_True|]. by rewrite decide_False.
Qed.

Lemma get_set_ne k k' v o : k ≠ k' → Obj.get k' (Obj.set k v o) = Obj.get k' o.
Proof.
  intros Hne. induction o as [|[k0 v0] o IH]; simpl.
  - by rewrite decide_False.
  - destruct (decide (k = k0)) as [->|]; simpl.
    + by rewrite !decide_False.
    + by rewrite IH.
Qed.

Lemma del_set k v o : Obj.del k (Obj.set k v o) = Obj.del k o.
Proof.
  induction o as [|[k' v'] o IH]; simpl.
  - by rewrite decide_True.
  - destruct (decide (k = k')) as [->|Hne]; simpl.
    + by rewrite decide_True.
    + by rewrite decide_False, IH.
Qed.

Lemma get_keys k o : Obj.get k o = None ↔ k ∉ Obj.keys o.
Proof.
  unfold Obj.keys. induction o as [|[k' v] o IH]; simpl.
  - split; [intros _; apply not_elem_of_nil|done].
  - rewrite not_elem_of_cons. case_decide; [|tauto].
    split; [done|]. by intros [? _].
Qed.

(** Deleting every key leaves the empty object. *)
Lemma del_all_keys (ks : list string) o :
  Obj.keys o ⊆ ks → foldl (λ o k, Obj.del k o) o ks = [].
Proof.
  revert o. induction ks as [|k ks IH]; intros o Hsub; simpl.
  - destruct o as [|[k v] o]; [done|].
    exfalso. eapply not_elem_of_nil, (Hsub k). simpl. left.
  - apply IH. intros k' Hk'.
    destruct (decide (k = k')) as [->|Hne].
    + exfalso. by apply (get_keys k' (Obj.del k' o)); [apply get_del_eq|].
    + assert (k' ∈ Obj.keys o) as Hin.
      { destruct (decide (k' ∈ Obj.keys o)) as [|Hn]; [done|].
        apply get_keys in Hn. exfalso.
        apply (get_keys k' (Obj.del k o)); [|done].
        by rewrite get_del_ne. }
      apply Hsub in Hin. by apply elem_of_cons in Hin as [->|].
Qed.
End obj_lemmas.

(** ** Stopping *)

Lemma stopNodes_eq nodes w :
  foldl (λ w n, stopNode n w) w nodes
  = set_trace (trace w ++ stopEvents nodes) w.
Proof.
  revert w. induction nodes as [|n nodes IH]; intros w.
  - simpl. rewrite app_nil_r. by destruct w.
  - unfold stopEvents. rewrite bind_cons. simpl. rewrite IH.
    destruct n, w; simpl; unfold set_trace; simpl;
      by rewrite <- ?app_assoc.
Qed.

Lemma stopSound_eq k w :
  stopSound k w
  = match Obj.get k (activeSounds w) with
    | Some nodes =>
        set_activeSounds (Obj.del k (activeSounds w))
          (set_trace (trace w ++ stopEvents nodes) w)
    | None => w
    end.
Proof.
  unfold stopSound. destruct (Obj.get k (activeSounds w)); [|done].
  by rewrite stopNodes_eq.
Qed.

Lemma stopSound_activeSounds k w :
  activeSounds (stopSound k w) = Obj.del k (activeSounds w).
Proof.
  rewrite stopSound_eq.
  destruct (Obj.get k (activeSounds w)) eqn:E; [done|].
  by rewrite del_absent.
Qed.

Lemma stopSounds_eq ks w :
  foldl (λ w k, stopSound k w) w ks
  = set_activeSounds (foldl (λ o k, Obj.del k o) (activeSounds w) ks)
      (set_trace (trace w ++ stopTrace ks (activeSounds w)) w).
Proof.
  revert w. induction ks as [|k ks IH]; intros w; simpl.
  - rewrite app_nil_r. by destruct w.
  - rewrite IH, stopSound_activeSounds, stopSound_eq.
    destruct (Obj.get k (activeSounds w)) eqn:E; simpl.
    + destruct w; simpl in *. unfold set_activeSounds, set_trace; simpl.
      by rewrite <- app_assoc.
    + rewrite del_absent by done. by destruct w.
Qed.

Lemma stopAllSounds_eq w :
  stopAllSounds w
  = clearTimer
      (set_activeSounds []
         (set_trace
            (trace w ++
               StopAll :: stopTrace (Obj.keys (activeSounds w)) (activeSounds w))
            w)).
Proof.
  unfold stopAllSounds. rewrite stopSounds_eq. simpl.
  rewrite del_all_keys by done.
  destruct w; simpl. unfold set_activeSounds, set_trace, log; simpl.
  by rewrite <- app_assoc.
Qed.

Lemma started_app tr1 tr2 : started (tr1 ++ tr2) = started tr1 ++ started tr2.
Proof. apply omap_app. Qed.

Lemma started_stopEvents nodes : started (stopEvents nodes) = [].
Proof.
  induction nodes as [|n nodes IH]; [done|].
  unfold stopEvents in *. rewrite bind_cons, started_app, IH.
  by destruct n.
Qed.

Lemma started_stopTrace ks o : started (stopTrace ks o) = [].
Proof.
  revert o. induction ks as [|k ks IH]; intros o; simpl; [done|].
  rewrite started_app, IH.
  destruct (Obj.get k o); [|done]. by rewrite started_stopEvents.
Qed.

Lemma stopAllCount_app tr1 tr2 :
  stopAllCount (tr1 ++ tr2) = (stopAllCount tr1 + stopAllCount tr2)%nat.
Proof. unfold stopAllCount. by rewrite filter_app, length_app. Qed.

Lemma stopAllCount_stopEvents nodes : stopAllCount (stopEvents nodes) = 0%nat.
Proof.
  induction nodes as [|n nodes IH]; [done|].
  unfold stopEvents in *. rewrite bind_cons, stopAllCount_app, IH.
  by destruct n.
Qed.

Lemma stopAllCount_stopTrace ks o : stopAllCount (stopTrace ks o) = 0%nat.
Proof.
  revert o. induction ks as [|k ks IH]; intros o; simpl; [done|].
  rewrite stopAllCount_app, IH.
  destruct (Obj.get k o); [|done]. by rewrite stopAllCount_stopEvents.
Qed.

(** ** C9: the frame of [stopSound] *)



(** ** Builders *)

Lemma timers_grow_refl w w' :
  timers w' = timers w → nextTimer w' = nextTimer w → timers_grow w w'.
Proof. intros Ht Hn. split; [rewrite Hn; lia|]. intros id. left. by rewrite Ht. Qed.

Lemma timers_grow_trans w1 w2 w3 :
  timers_grow w1 w2 → timers_grow w2 w3 → timers_grow w1 w3.
Proof.
  intros [Hn1 H1] [Hn2 H2]. split; [lia|]. intros id.
  destruct (H2 id) as [->|(Hr & Hs & Hc)]; [|right; split; [lia|done]].
  destruct (H1 id) as [->|(Hr & Hs & Hc)]; [by left|].
  right. split; [lia|done].
Qed.

Lemma setInterval_grow cb w :
  cb ≠ Countdown → timers_grow w (setInterval cb w).2.
Proof.
  intros Hcb. split; simpl; [lia|]. intros id.
  destruct (decide (id = nextTimer w)) as [->|Hne].
  - right. rewrite lookup_insert_eq. split; [lia|]. split; [done|congruence].
  - left. by rewrite lookup_insert_ne.
Qed.

Lemma timers_ok_grow w w' :
  timers_grow w w' → timerInterval w' = timerInterval w →
  timers_ok w → timers_ok w'.
Proof.
  intros [Hn Hg] Hi [Hlt Hcd]. split.
  - intros id cb Hcb. destruct (Hg id) as [Heq|(Hr & _)]; [|lia].
    rewrite Heq in Hcb. apply Hlt in Hcb. lia.
  - intros id Hcb. destruct (Hg id) as [Heq|(_ & _ & Hc)]; [|done].
    rewrite Hi. apply Hcd. by rewrite <- Heq.
Qed.

(** Case analysis along the [switch] of [playSound]. *)
Ltac builder_cases H :=
  unfold builder in H; repeat case_decide; simplify_eq.

Ltac no_other_name :=
  let Hin := fresh in
  intros Hin; try reflexivity;
  repeat (apply elem_of_cons in Hin as [Hin|Hin]; [discriminate Hin|]);
  by apply elem_of_nil in Hin.

Ltac grow_by_inserts w :=
  split; simpl; [lia|];
  let id := fresh "id" in
  intros id;
  repeat match goal with
    | |- context [<[?j := _]> _ !! id] =>
        destruct (decide (id = j)) as [->|];
        [right; rewrite lookup_insert_eq;
         split; [lia|]; split; [done|congruence]
        |rewrite (lookup_insert_ne _ j id) by done]
    end;
  by left.

Lemma builder_spec k play w :
  builder k = Some play →
  ∃ nodes names,
    activeSounds (play w) = Obj.set k nodes (activeSounds w) ∧
    trace (play w) = trace w ++ (Start <$> names) ∧
    ("pinkNoise" ∈ names → k = "pink-noise") ∧
    playing (play w) = playing w ∧
    sound_frame w (play w) ∧ timers_grow w (play w).
Proof.
  intros Hb. builder_cases Hb.
  - exists [Source "whiteNoise"; Stage "filter"], ["whiteNoise"].
    split_and!; try done; [no_other_name|by apply timers_grow_refl].
  - exists [Source "pinkNoise"; Stage "filter"], ["pinkNoise"].
    split_and!; try done. by apply timers_grow_refl.
  - exists [Source "brownNoise"; Stage "filter"], ["brownNoise"].
    split_and!; try done; [no_other_name|by apply timers_grow_refl].
  - eexists _, ["heartbeatLFO"; "heartbeatSound"].
    split_and!; try done;
      [simpl; by rewrite <- app_assoc|no_other_name|by apply timers_grow_refl].
  - eexists _, ["oceanBase"; "waveLFO"].
    split_and!; try done;
      [simpl; by rewrite <- app_assoc|no_other_name|by apply timers_grow_refl].
  - eexists _, ["rainBase"].
    split_and!; try done; [no_other_name|grow_by_inserts w].
  - eexists _, ["snowBase"; "windLFO"].
    split_and!; try done;
      [simpl; by rewrite <- app_assoc|no_other_name|by apply timers_grow_refl].
  - eexists _, ["forestBase"].
    split_and!; try done; [no_other_name|grow_by_inserts w].
  - exists [Source "noteOsc"; Stage "noteGain"], ["noteOsc"].
    unfold playLullaby, playNextNote. simpl. rewrite get_set_eq. simpl.
    split_and!; try done; [no_other_name|grow_by_inserts w].
Qed.

(** ** Playing *)

Lemma playSound_spec k play w :
  builder k = Some play →
  ∃ nodes names,
    activeSounds (playSound k w) = Obj.set k nodes (activeSounds w) ∧
    trace (playSound k w)
    = trace w ++ (if suspended w then [Resume] else []) ++ (Start <$> names) ∧
    ("pinkNoise" ∈ names → k = "pink-noise") ∧
    playing (playSound k w)
    = (if decide (k ∈ tiles w) then {[k]} ∪ playing w else playing w) ∧
    sound_frame w (playSound k w) ∧ timers_grow w (playSound k w).
Proof.
  intros Hb. unfold playSound. rewrite Hb.
  set (w1 := if suspended w then log Resume w else w).
  destruct (builder_spec k play w1 Hb)
    as (nodes & names & Ha & Ht & Hp & Hpl & Hf & Hg).
  assert (activeSounds w1 = activeSounds w ∧ playing w1 = playing w ∧
          timers w1 = timers w ∧ nextTimer w1 = nextTimer w ∧
          trace w1 = trace w ++ (if suspended w then [Resume] else []) ∧
          sound_frame w w1) as (Ha1 & Hpl1 & Ht1 & Hn1 & Htr1 & Hf1).
  { subst w1. unfold sound_frame.
    destruct (suspended w) eqn:Hs; simpl; rewrite ?app_nil_r, ?Hs;
      by repeat split. }
  assert (sound_frame w (play w1)) as Hf2.
  { unfold sound_frame in *. destruct_and!. split_and!; congruence. }
  assert (timers_grow w (play w1)) as Hg2.
  { eapply timers_grow_trans; [by apply (timers_grow_refl w w1)|done]. }
  exists nodes, names.
  assert (tiles (play w1) = tiles w) as Htl by (unfold sound_frame in Hf2; tauto).
  rewrite Htl. case_decide; simpl.
  - rewrite Ha, Ha1, Ht, Htr1, <- app_assoc.
    split_and!; [done..|by rewrite Hpl, Hpl1|exact Hf2|exact Hg2].
  - rewrite Ha, Ha1, Ht, Htr1, Hpl, Hpl1, <- app_assoc.
    split_and!; [done..|exact Hf2|exact Hg2].
Qed.

Lemma playSound_unknown k w :
  builder k = None →
  playSound k w
  = log (Warn "Unknown sound type:" k) (if suspended w then log Resume w else w).
Proof. intros Hb. unfold playSound. by rewrite Hb. Qed.

Lemma playSound_timers_ok k w : timers_ok w → timers_ok (playSound k w).
Proof.
  intros Hok. destruct (builder k) as [play|] eqn:Hb.
  - destruct (playSound_spec k play w Hb) as (? & ? & _ & _ & _ & _ & Hf & Hg).
    eapply timers_ok_grow; [done| |done]. unfold sound_frame in Hf. tauto.
  - rewrite playSound_unknown by done. by destruct (suspended w).
Qed.

Lemma playSound_length k w :
  activeSounds w = [] → (length (activeSounds (playSound k w)) ≤ 1)%nat.
Proof.
  intros He. destruct (builder k) as [play|] eqn:Hb.
  - destruct (playSound_spec k play w Hb) as (? & ? & -> & _).
    by rewrite He.
  - rewrite playSound_unknown by done. destruct (suspended w); simpl; rewrite He; simpl; lia.
Qed.

(** ** The timer *)

Lemma clearTimer_spec w :
  timerInterval (clearTimer w) = None ∧
  timers (clearTimer w)
  = match timerInterval w with
    | Some id => delete id (timers w)
    | None => timers w
    end ∧
  nextTimer (clearTimer w) = nextTimer w ∧
  activeSounds (clearTimer w) = activeSounds w ∧
  trace (clearTimer w) = trace w ∧
  playing (clearTimer w) = playing w ∧
  comboSounds (clearTimer w) = comboSounds w ∧
  checkboxes (clearTimer w) = checkboxes w ∧
  tiles (clearTimer w) = tiles w ∧
  now (clearTimer w) = now w ∧
  timerEndTime (clearTimer w) = timerEndTime w ∧
  currentSound (clearTimer w) = currentSound w ∧
  comboSettingsHidden (clearTimer w) = comboSettingsHidden w ∧
  suspended (clearTimer w) = suspended w.
Proof.
  unfold clearTimer. destruct (timerInterval w) eqn:E; simpl; by rewrite ?E.
Qed.

Lemma clearTimer_unarmed w :
  timers_ok w →
  timerInterval (clearTimer w) = None ∧ ¬ armed (clearTimer w) ∧
  timers_ok (clearTimer w).
Proof.
  intros [Hlt Hcd].
  destruct (clearTimer_spec w) as (Hi & Ht & Hn & _).
  assert (∀ id, timers (clearTimer w) !! id ≠ Some Countdown) as Hno.
  { intros id Hid. rewrite Ht in Hid.
    destruct (timerInterval w) as [i|] eqn:Ei.
    - apply lookup_delete_Some in Hid as [Hne Hid].
      apply Hcd in Hid. congruence.
    - apply Hcd in Hid. congruence. }
  split_and!; [done|by intros [id Hid]; apply (Hno id)|].
  split.
  - intros id cb Hid. rewrite Hn. apply (Hlt id cb). rewrite Ht in Hid.
    destruct (timerInterval w); [|done].
    by apply lookup_delete_Some in Hid as [_ Hid].
  - intros id Hid. by apply Hno in Hid.
Qed.

Lemma stopAllSounds_spec w :
  activeSounds (stopAllSounds w) = [] ∧
  trace (stopAllSounds w)
  = trace w ++ StopAll :: stopTrace (Obj.keys (activeSounds w)) (activeSounds w) ∧
  timerInterval (stopAllSounds w) = None ∧
  timers (stopAllSounds w) = timers (clearTimer w) ∧
  nextTimer (stopAllSounds w) = nextTimer w ∧
  playing (stopAllSounds w) = playing w ∧
  comboSounds (stopAllSounds w) = comboSounds w ∧
  checkboxes (stopAllSounds w) = checkboxes w ∧
  tiles (stopAllSounds w) = tiles w ∧
  now (stopAllSounds w) = now w ∧
  timerEndTime (stopAllSounds w) = timerEndTime w ∧
  currentSound (stopAllSounds w) = currentSound w ∧
  comboSettingsHidden (stopAllSounds w) = comboSettingsHidden w ∧
  suspended (stopAllSounds w) = suspended w.
Proof.
  rewrite stopAllSounds_eq. unfold clearTimer. simpl.
  destruct (timerInterval w) eqn:E; simpl; by rewrite ?E.
Qed.

Lemma stopAllSounds_unarmed w :
  timers_ok w →
  timerInterval (stopAllSounds w) = None ∧ ¬ armed (stopAllSounds w) ∧
  timers_ok (stopAllSounds w).
Proof.
  intros Hok. destruct (clearTimer_unarmed w Hok) as (Hi & Hna & [Hlt Hcd]).
  destruct (stopAllSounds_spec w) as (_ & _ & Hi' & Ht & Hn & _).
  destruct (clearTimer_spec w) as (_ & _ & Hn' & _).
  split_and!; [done| |].
  - intros [id Hid]. apply Hna. exists id. by rewrite <- Ht.
  - split.
    + intros id cb Hid. rewrite Hn, <- Hn'. apply (Hlt id cb). by rewrite <- Ht.
    + intros id Hid. rewrite Ht in Hid. exfalso. apply Hna. by exists id.
Qed.

Lemma stopAllSounds_started w :
  started (trace (stopAllSounds w)) = started (trace w).
Proof.
  destruct (stopAllSounds_spec w) as (_ & -> & _).
  rewrite started_app. simpl. rewrite started_stopTrace. apply app_nil_r.
Qed.

Lemma stopAllSounds_count w :
  stopAllCount (trace (stopAllSounds w)) = S (stopAllCount (trace w)).
Proof.
  destruct (stopAllSounds_spec w) as (_ & -> & _).
  rewrite stopAllCount_app.
  change (StopAll :: ?l) with ([StopAll] ++ l).
  rewrite stopAllCount_app, stopAllCount_stopTrace. unfold stopAllCount. simpl.
  lia.
Qed.

Lemma setTimer_zero w :
  timers_ok w →
  timerInterval (setTimer 0 w) = None ∧ ¬ armed (setTimer 0 w) ∧
  timers_ok (setTimer 0 w).
Proof.
  intros Hok. unfold setTimer. rewrite bool_decide_eq_true_2 by done.
  exact (clearTimer_unarmed w Hok).
Qed.

Lemma setTimer_arms minutes w :
  timers_ok w → minutes ≠ 0 →
  let w' := setTimer minutes w in
  timers_ok w' ∧ timerInterval w' = Some (nextTimer w) ∧
  (∀ id, timers w' !! id = Some Countdown ↔ id = nextTimer w) ∧
  timerEndTime w' = now w + minutes * 60 * 1000 ∧
  trace w' = trace w ∧ activeSounds w' = activeSounds w ∧ now w' = now w.
Proof.
  intros Hok Hm.
  destruct (clearTimer_unarmed w Hok) as (_ & Hna & [Hlt Hcd]).
  destruct (clearTimer_spec w)
    as (_ & _ & Hn & Ha & Htr & _ & _ & _ & _ & Hnow & _).
  unfold setTimer. rewrite bool_decide_eq_false_2 by done.
  revert Hna Hlt Hcd Hn Ha Htr Hnow. generalize (clearTimer w).
  intros w0 Hna Hlt Hcd Hn Ha Htr Hnow. simpl. rewrite Hn, Ha, Htr, Hnow.
  assert (∀ id, <[nextTimer w := Countdown]> (timers w0) !! id = Some Countdown
                ↔ id = nextTimer w) as Hiff.
  { intros id. destruct (decide (id = nextTimer w)) as [->|Hne].
    - by rewrite lookup_insert_eq.
    - rewrite lookup_insert_ne by done. split; [|done].
      intros Hid. exfalso. apply Hna. by exists id. }
  split_and!; try done. split; simpl.
  - intros id cb. destruct (decide (id = nextTimer w)) as [->|Hne].
    + lia.
    + rewrite lookup_insert_ne by done. intros Hid%Hlt. lia.
  - intros id Hid. apply Hiff in Hid. by subst.
Qed.

(** ** Callbacks *)

Lemma quiet_refl w : quiet w w.
Proof. unfold quiet. split_and!; done. Qed.

Lemma stopAllCount_other e : e ≠ StopAll → stopAllCount [e] = 0%nat.
Proof. by destruct e. Qed.

Lemma log_quiet e w : e ≠ StopAll → quiet w (log e w).
Proof.
  intros He. unfold quiet. simpl.
  rewrite stopAllCount_app, stopAllCount_other, Nat.add_0_r by done.
  split_and!; done.
Qed.

Lemma clearInterval_quiet id w :
  timers w !! id ≠ Some Countdown → quiet w (clearInterval id w).
Proof.
  intros Hid. unfold quiet. simpl. split_and!; try done.
  - intros i. destruct (decide (id = i)) as [->|Hne].
    + rewrite lookup_delete_eq. split; [done|]. by intros ?.
    + by rewrite lookup_delete_ne.
  - intros [Hlt Hcd]. split; simpl.
    + intros i cb [_ Hi]%lookup_delete_Some. by apply (Hlt i cb).
    + intros i [_ Hi]%lookup_delete_Some. by apply Hcd.
Qed.

Lemma quiet_trans w1 w2 w3 : quiet w1 w2 → quiet w2 w3 → quiet w1 w3.
Proof.
  unfold quiet. intros (?&?&?&?&?&Hc1&?) (?&?&?&?&?&Hc2&?).
  split_and!; try congruence; [|tauto].
  intros id. by rewrite Hc2, Hc1.
Qed.

Lemma playNextNote_quiet w : timers_ok w → quiet w (playNextNote w).
Proof.
  intros [Hlt Hcd]. unfold playNextNote.
  destruct (Obj.get "lullaby" (activeSounds w)); [|apply quiet_refl].
  unfold quiet. simpl. split_and!; try done.
  - intros id. destruct (decide (id = nextTimer w)) as [->|Hne].
    + rewrite lookup_insert_eq. split; [done|].
      intros Hid%Hlt. lia.
    + by rewrite lookup_insert_ne.
  - intros _. split; simpl.
    + intros id cb. destruct (decide (id = nextTimer w)) as [->|Hne]; [lia|].
      rewrite lookup_insert_ne by done. intros Hid%Hlt. lia.
    + intros id. destruct (decide (id = nextTimer w)) as [->|Hne].
      * by rewrite lookup_insert_eq.
      * rewrite lookup_insert_ne by done. apply Hcd.
Qed.

Lemma schedulerTick_quiet id category burst chance w :
  timers w !! id ≠ Some Countdown →
  quiet w (schedulerTick id category burst chance w).
Proof.
  intros Hid. unfold schedulerTick.
  destruct (Obj.get category (activeSounds w)).
  - destruct chance; [by apply log_quiet|apply quiet_refl].
  - by apply clearInterval_quiet.
Qed.

Lemma fire_quiet id chance w :
  timers_ok w → timers w !! id ≠ Some Countdown → quiet w (fire id chance w).
Proof.
  intros Hok Hid. unfold fire.
  destruct (timers w !! id) as [[]|] eqn:E; [done| | | | |apply quiet_refl];
    try (apply schedulerTick_quiet; congruence).
  assert (quiet w (clearInterval id w)) as Hq
    by (apply clearInterval_quiet; congruence).
  eapply quiet_trans; [done|]. apply playNextNote_quiet.
  unfold quiet in Hq. tauto.
Qed.

Lemma countdownTick_early w :
  now w < timerEndTime w → quiet w (countdownTick w).
Proof.
  intros Hlt. unfold countdownTick. simpl.
  rewrite bool_decide_eq_false_2 by lia. unfold quiet. split_and!; done.
Qed.

Lemma countdownTick_expired w :
  timers_ok w → timerEndTime w ≤ now w →
  let w' := countdownTick w in
  timers_ok w' ∧ timerInterval w' = None ∧ activeSounds w' = [] ∧
  now w' = now w ∧
  stopAllCount (trace w') = S (stopAllCount (trace w)).
Proof.
  intros Hok Hle. unfold countdownTick. simpl.
  rewrite bool_decide_eq_true_2 by done.
  set (w0 := updateTimerDisplay w).
  assert (timers_ok w0) as Hok0 by exact Hok.
  destruct (stopAllSounds_unarmed w0 Hok0) as (Hi & Hna & Hok1).
  destruct (stopAllSounds_spec w0) as (Ha & _ & _ & _ & _ & _ & _ & _ & _ & Hnow & _).
  pose proof (stopAllSounds_count w0) as Hc.
  set (w1 := set_playing ∅ (stopAllSounds w0)).
  assert (timers_ok w1) as Hok2 by exact Hok1.
  destruct (clearTimer_unarmed w1 Hok2) as (Hi2 & _ & Hok3).
  destruct (clearTimer_spec w1) as (_ & _ & _ & Ha2 & Htr2 & _ & _ & _ & _ & Hnow2 & _).
  split_and!; [done|done| | |].
  - by rewrite Ha2.
  - by rewrite Hnow2.
  - by rewrite Htr2.
Qed.

Lemma unarmed_not_armed w : unarmed w → ¬ armed w.
Proof. intros [[_ Hcd] Hi] [id Hid]. apply Hcd in Hid. congruence. Qed.

Lemma armedAt_only id deadline w i :
  armedAt id deadline w → timers w !! i = Some Countdown → i = id.
Proof. intros ([_ Hcd] & Hi & _) Hc. apply Hcd in Hc. congruence. Qed.

Lemma runTick_unarmed k w :
  unarmed w →
  unarmed (runTick k w) ∧
  stopAllCount (trace (runTick k w)) = stopAllCount (trace w) ∧
  now (runTick k w) = at_time k.
Proof.
  intros Hu. pose proof (unarmed_not_armed w Hu) as Hna.
  destruct Hu as [Hok Hi]. unfold runTick.
  set (w0 := set_now (at_time k) w).
  assert (timers_ok w0) as Hok0 by exact Hok.
  destruct (fire_quiet (timer_id k) (random_hit k) w0 Hok0)
    as (Hi' & _ & Hnow & _ & Hc & _ & Hok').
  { intros Hid. apply Hna. by exists (timer_id k). }
  split_and!; [|done|done]. split; [by apply Hok'|by rewrite Hi'].
Qed.

Lemma runTick_armed_expires id deadline k w :
  armedAt id deadline w → expires id deadline k →
  unarmed (runTick k w) ∧
  stopAllCount (trace (runTick k w)) = S (stopAllCount (trace w)) ∧
  now (runTick k w) = at_time k.
Proof.
  intros (Hok & Hi & Hid & He) [Hk Hle]. unfold runTick, fire. simpl.
  rewrite Hk, Hid.
  set (w0 := set_now (at_time k) w).
  destruct (countdownTick_expired w0) as (Hok' & Hi' & _ & Hnow & Hc);
    [exact Hok|simpl; lia|].
  split_and!; [|done|done]. by split.
Qed.

Lemma runTick_armed_other id deadline k w :
  armedAt id deadline w → ¬ expires id deadline k →
  armedAt id deadline (runTick k w) ∧
  stopAllCount (trace (runTick k w)) = stopAllCount (trace w) ∧
  now (runTick k w) = at_time k.
Proof.
  intros Ha Hk. pose proof (armedAt_only id deadline w) as Honly.
  destruct Ha as (Hok & Hi & Hid & He).
  set (w0 := set_now (at_time k) w).
  assert (quiet w0 (runTick k w)) as (Hi' & He' & Hnow & _ & Hc & Hcd & Hok').
  { unfold runTick. fold w0.
    destruct (decide (timer_id k = id)) as [Heq|Hne].
    - unfold fire. simpl. rewrite Heq, Hid. apply countdownTick_early.
      simpl. unfold expires in Hk. lia.
    - apply fire_quiet; [exact Hok|]. simpl. intros Hc. apply Hne.
      by apply Honly. }
  split_and!; [|done|done]. unfold armedAt.
  split_and!; [by apply Hok'|by rewrite Hi'|by apply Hcd|by rewrite He'].
Qed.

Lemma runTicks_unarmed ks w :
  unarmed w →
  unarmed (runTicks ks w) ∧
  stopAllCount (trace (runTicks ks w)) = stopAllCount (trace w).
Proof.
  revert w. induction ks as [|k ks IH]; intros w Hu; [done|]. simpl.
  destruct (runTick_unarmed k w Hu) as (Hu' & Hc & _).
  destruct (IH _ Hu') as [? Hc']. split; [done|]. by rewrite Hc', Hc.
Qed.

Lemma runTicks_armed id deadline ks w :
  armedAt id deadline w →
  (Exists (expires id deadline) ks →
     unarmed (runTicks ks w) ∧
     stopAllCount (trace (runTicks ks w)) = S (stopAllCount (trace w))) ∧
  (¬ Exists (expires id deadline) ks →
     armedAt id deadline (runTicks ks w) ∧
     stopAllCount (trace (runTicks ks w)) = stopAllCount (trace w)).
Proof.
  revert w. induction ks as [|k ks IH]; intros w Ha.
  - split; [by intros ?%Exists_nil|done].
  - simpl. destruct (decide (expires id deadline k)) as [Hk|Hk].
    + destruct (runTick_armed_expires id deadline k w Ha Hk) as (Hu & Hc & _).
      destruct (runTicks_unarmed ks _ Hu) as [Hu' Hc'].
      split; [intros _|intros []; by left].
      split; [done|]. by rewrite Hc', Hc.
    + destruct (runTick_armed_other id deadline k w Ha Hk) as (Ha' & Hc & _).
      destruct (IH _ Ha') as [IH1 IH2]. rewrite <- Hc. split.
      * intros [?|?]%Exists_cons; [done|]. by apply IH1.
      * intros Hn. apply IH2. intros ?. apply Hn. by right.
Qed.

Lemma countdownTick_now w : now (countdownTick w) = now w.
Proof.
  unfold countdownTick. case_bool_decide; [|done].
  set (w0 := updateTimerDisplay w).
  destruct (stopAllSounds_spec w0)
    as (_ & _ & _ & _ & _ & _ & _ & _ & _ & Hnow & _).
  destruct (clearTimer_spec (set_playing ∅ (stopAllSounds w0)))
    as (_ & _ & _ & _ & _ & _ & _ & _ & _ & Hnow' & _).
  by rewrite Hnow'.
Qed.

Lemma fire_now id chance w : now (fire id chance w) = now w.
Proof.
  unfold fire, schedulerTick, playNextNote.
  destruct (timers w !! id) as [[]|]; try done.
  - apply countdownTick_now.
  - by destruct (Obj.get "rain" (activeSounds w)), chance.
  - by destruct (Obj.get "forest" (activeSounds w)), chance.
  - by destruct (Obj.get "forest" (activeSounds w)), chance.
  - simpl. by destruct (Obj.get "lullaby" (activeSounds w)).
Qed.

Lemma runTick_now k w : now (runTick k w) = at_time k.
Proof. unfold runTick. by rewrite fire_now. Qed.

Lemma runTick_timers_ok k w : timers_ok w → timers_ok (runTick k w).
Proof.
  intros Hok. unfold runTick. set (w0 := set_now (at_time k) w).
  assert (timers_ok w0) as Hok0 by exact Hok.
  destruct (decide (timers w0 !! timer_id k = Some Countdown)) as [Hc|Hc].
  - unfold fire. rewrite Hc.
    destruct (decide (timerEndTime w0 ≤ now w0)) as [Hle|Hgt].
    + by destruct (countdownTick_expired w0 Hok0 Hle) as (? & _).
    + destruct (countdownTick_early w0) as (_ & _ & _ & _ & _ & _ & H');
        [lia|by apply H'].
  - destruct (fire_quiet (timer_id k) (random_hit k) w0 Hok0 Hc)
      as (_ & _ & _ & _ & _ & _ & H'). by apply H'.
Qed.

Lemma advanceSeconds_runTicks n id w :
  advanceSeconds n id w = runTicks (secondTicks n id (now w)) w.
Proof.
  revert w. induction n as [|n IH]; intros w; [done|].
  simpl. rewrite IH, runTick_now. simpl. unfold secondTicks.
  rewrite <- (fmap_S_seq 1 n), <- list_fmap_compose.
  unfold runTicks. f_equal.
  apply list_fmap_ext. intros _ i _. simpl. f_equal. lia.
Qed.

Lemma runTicks_timers_ok ks w : timers_ok w → timers_ok (runTicks ks w).
Proof.
  revert w. induction ks as [|k ks IH]; intros w Hok; [done|].
  simpl. by apply IH, runTick_timers_ok.
Qed.

Lemma setTimer_timers_ok minutes w : timers_ok w → timers_ok (setTimer minutes w).
Proof.
  intros Hok. destruct (decide (minutes = 0)) as [->|Hm].
  - by destruct (setTimer_zero w Hok) as (_ & _ & ?).
  - by destruct (setTimer_arms minutes w Hok Hm) as (? & _).
Qed.

Lemma constructor_timers_ok page_tiles boxes susp t0 :
  timers_ok (constructor page_tiles boxes susp t0).
Proof. split; simpl; intros id; by rewrite lookup_empty. Qed.

Lemma secondTicks_expire (n : nat) (id : positive) (t deadline : Z) :
  (0 < n)%nat → deadline ≤ t + 1000 * Z.of_nat n →
  Exists (expires id deadline) (secondTicks n id t).
Proof.
  intros Hn Hle. apply Exists_exists.
  exists (Tick (t + 1000 * Z.of_nat n) id false). split; [|by split].
  unfold secondTicks. apply list_elem_of_fmap. exists n. split; [done|].
  apply elem_of_seq. lia.
Qed.

(** ** C4: expiry of the timer *)

(** C4.  A timer armed for [m > 0] minutes is a single countdown with
    deadline [now + m * 60 * 1000].  Whatever callbacks the browser runs
    afterwards, once one of them is the countdown coming due at or after
    the deadline, [stopAllSounds] has been entered exactly once more and
    the timer is unarmed (no [timerInterval], no countdown entry left);
    while no such tick has happened, it has not been entered and the
    timer is still armed.  In particular this is so after [n] whole
    seconds, [n ≥ 60 m]. *)
Theorem timer_expiry_stops_once (w : State) (m : Z) :
  timers_ok w → 0 < m →
  let w1 := setTimer m w in
  let id := nextTimer w in
  let deadline := now w + m * 60 * 1000 in
  armedAt id deadline w1 ∧
  (∀ ks, Exists (expires id deadline) ks →
     stopAllCount (trace (runTicks ks w1)) = S (stopAllCount (trace w)) ∧
     timerInterval (runTicks ks w1) = None ∧ ¬ armed (runTicks ks w1)) ∧
  (∀ ks, ¬ Exists (expires id deadline) ks →
     stopAllCount (trace (runTicks ks w1)) = stopAllCount (trace w) ∧
     armedAt id deadline (runTicks ks w1)) ∧
  (∀ n : nat, m * 60 ≤ Z.of_nat n →
     stopAllCount (trace (advanceSeconds n id w1)) = S (stopAllCount (trace w)) ∧
     timerInterval (advanceSeconds n id w1) = None ∧
     ¬ armed (advanceSeconds n id w1)).
Proof.
  intros Hok Hm w1 id deadline.
  destruct (setTimer_arms m w Hok) as (Hok1 & Hi & Hcd & He & Htr & _ & Hnow);
    [lia|].
  fold w1 in Hok1, Hi, Hcd, He, Htr, Hnow.
  assert (armedAt id deadline w1) as Ha.
  { unfold armedAt. split_and!; [done|done|by apply Hcd|done]. }
  assert (∀ ks, Exists (expires id deadline) ks →
     stopAllCount (trace (runTicks ks w1)) = S (stopAllCount (trace w)) ∧
     timerInterval (runTicks ks w1) = None ∧ ¬ armed (runTicks ks w1)) as Hfire.
  { intros ks Hks. destruct (runTicks_armed id deadline ks w1 Ha) as [H1 _].
    destruct (H1 Hks) as [Hu Hc]. rewrite Hc, Htr.
    split_and!; [done|by destruct Hu|by apply unarmed_not_armed]. }
  split_and!; [done|done| |].
  - intros ks Hks. destruct (runTicks_armed id deadline ks w1 Ha) as [_ H2].
    destruct (H2 Hks) as [Ha' Hc]. by rewrite Hc, Htr.
  - intros n Hn. rewrite advanceSeconds_runTicks. apply Hfire.
    apply secondTicks_expire; [lia|]. rewrite Hnow. unfold deadline. lia.
Qed.

Lemma timer_expiry_stops_once_witness :
  stopAllCount (trace (advanceSeconds 60 1 (setTimer 1 freshMachine))) = 1%nat ∧
  timerInterval (advanceSeconds 60 1 (setTimer 1 freshMachine)) = None.
Proof.
  destruct (timer_expiry_stops_once freshMachine 1) as (_ & _ & _ & H).
  - apply constructor_timers_ok.
  - lia.
  - destruct (H 60%nat) as (Hc & Hi & _); [lia|]. by split.
Defined.

(** ** C7: re-arming *)

(** C7.  Arming again replaces the timer: after [setTimer a], whatever
    callbacks ran since, a [setTimer b] with [b > 0] at clock reading [t]
    leaves one countdown entry, the one in [timerInterval], with deadline
    [t + b * 60 * 1000]; and [setTimer 0] leaves the timer unarmed at
    once. *)
Theorem rearming_replaces (w : State) (a b t : Z) (ks : list tick) :
  timers_ok w → 0 < b →
  let w1 := set_now t (runTicks ks (setTimer a w)) in
  (timerEndTime (setTimer b w1) = t + b * 60 * 1000 ∧
   ∃ id, timerInterval (setTimer b w1) = Some id ∧
         ∀ i, timers (setTimer b w1) !! i = Some Countdown ↔ i = id) ∧
  (timerInterval (setTimer 0 w1) = None ∧ ¬ armed (setTimer 0 w1)).
Proof.
  intros Hok Hb w1.
  assert (timers_ok w1) as Hok1.
  { apply (runTicks_timers_ok ks (setTimer a w)). by apply setTimer_timers_ok. }
  split.
  - destruct (setTimer_arms b w1 Hok1) as (_ & Hi & Hcd & He & _); [lia|].
    split; [exact He|]. by exists (nextTimer w1).
  - by destruct (setTimer_zero w1 Hok1) as (? & ? & _).
Qed.

Lemma rearming_replaces_witness :
  timerEndTime (setTimer 30 (set_now 5000 (setTimer 15 freshMachine)))
  = 5000 + 30 * 60 * 1000 ∧
  timerInterval (setTimer 0 (set_now 5000 (setTimer 15 freshMachine))) = None.
Proof.
  destruct (rearming_replaces freshMachine 15 30 5000 [])
    as [[He _] [Hi _]].
  - apply constructor_timers_ok.
  - lia.
  - by split.
Defined.

(** ** Combo mode *)

Lemma playSound_frame k w : sound_frame w (playSound k w).
Proof.
  destruct (builder k) as [play|] eqn:Hb.
  - by destruct (playSound_spec k play w Hb) as (? & ? & _ & _ & _ & _ & ? & _).
  - rewrite playSound_unknown by done. unfold sound_frame.
    destruct (suspended w) eqn:Hs; simpl; rewrite ?Hs; split_and!; done.
Qed.

Lemma playSound_trace k w :
  ∃ evs, trace (playSound k w) = trace w ++ evs ∧
         stopAllCount evs = 0%nat ∧
         ("pinkNoise" ∈ started evs → k = "pink-noise").
Proof.
  destruct (builder k) as [play|] eqn:Hb.
  - destruct (playSound_spec k play w Hb) as (? & names & _ & Ht & Hp & _).
    eexists. split; [exact Ht|].
    assert (∀ l, stopAllCount (Start <$> l) = 0%nat) as Hc
      by (induction l; [done|by simpl]).
    assert (∀ l, started (Start <$> l) = l) as Hs.
    { induction l as [|name l IH]; [done|].
      change (name :: started (Start <$> l) = name :: l). by f_equal. }
    rewrite stopAllCount_app, started_app, Hc, Hs.
    split; [by destruct (suspended w)|].
    intros [Hin|Hin]%elem_of_app; [|by apply Hp].
    destruct (suspended w); simpl in Hin; by apply elem_of_nil in Hin.
  - rewrite playSound_unknown by done.
    destruct (suspended w); simpl; eexists;
      (split; [by rewrite <- ?app_assoc|]); split; try done;
      by intros ?%elem_of_nil.
Qed.

(** The [forEach] that plays the selected sounds. *)
Lemma playSelected_eq ks w :
  foldl (λ w sound,
           match Obj.get sound (comboSounds w) with
           | Some true => playSound sound w
           | _ => w
           end) w ks
  = foldl (λ w sound, playSound sound w) w
      (filter (λ k, Obj.get k (comboSounds w) = Some true) ks).
Proof.
  revert w. induction ks as [|k ks IH]; intros w; [done|]. simpl.
  assert (comboSounds (playSound k w) = comboSounds w) as Hcs.
  { pose proof (playSound_frame k w) as Hf. unfold sound_frame in Hf. tauto. }
  rewrite IH. destruct (Obj.get k (comboSounds w)) as [[]|] eqn:E.
  - rewrite filter_cons_True by done. simpl. by rewrite Hcs.
  - rewrite filter_cons_False by congruence. done.
  - rewrite filter_cons_False by congruence. done.
Qed.

Lemma playSounds_spec ks w :
  let w' := foldl (λ w sound, playSound sound w) w ks in
  (∀ k, k ∉ ks → Obj.get k (activeSounds w') = Obj.get k (activeSounds w)) ∧
  (∃ evs, trace w' = trace w ++ evs ∧ stopAllCount evs = 0%nat ∧
          ("pinkNoise" ∈ started evs → "pink-noise" ∈ ks)) ∧
  sound_frame w w' ∧ (timers_ok w → timers_ok w').
Proof.
  revert w. induction ks as [|k ks IH]; intros w; simpl.
  - split_and!; [done| |unfold sound_frame; split_and!; done|done].
    exists []. rewrite app_nil_r. split_and!; [done..|by intros ?%elem_of_nil].
  - destruct (IH (playSound k w)) as (Hget & (evs & Ht & Hc & Hp) & Hf & Hok).
    destruct (playSound_trace k w) as (evs0 & Ht0 & Hc0 & Hp0).
    pose proof (playSound_frame k w) as Hf0.
    split_and!.
    + intros k' [Hne Hk']%not_elem_of_cons. rewrite Hget by done.
      destruct (builder k) as [play|] eqn:Hb.
      * destruct (playSound_spec k play w Hb) as (? & ? & -> & _).
        by apply get_set_ne.
      * rewrite playSound_unknown by done. by destruct (suspended w).
    + exists (evs0 ++ evs). rewrite Ht, Ht0, <- app_assoc.
      rewrite stopAllCount_app, started_app, Hc, Hc0.
      split_and!; [done..|].
      intros [Hin|Hin]%elem_of_app.
      * rewrite (Hp0 Hin). left.
      * right. by apply Hp.
    + unfold sound_frame in *. destruct_and!. split_and!; congruence.
    + intros Hw. by apply Hok, playSound_timers_ok.
Qed.

Lemma applyComboSettings_Some w w' :
  applyComboSettings w = Some w' ↔
  ∃ white brown heartbeat ocean rain snow forest lullaby,
    boxesRead w white brown heartbeat ocean rain snow forest lullaby ∧
    w' = commitResult
           (selectionOf white brown heartbeat ocean rain snow forest lullaby)
           (set_playing ∅ (stopAllSounds w)).
Proof.
  assert (checkboxes (set_playing ∅ (stopAllSounds w)) = checkboxes w) as Hcb.
  { destruct (stopAllSounds_spec w) as (_&_&_&_&_&_&_&Hcb&_). exact Hcb. }
  unfold applyComboSettings, boxesRead. rewrite Hcb.
  split.
  - intros H.
    destruct (checkboxes w !! "combo-white-noise") as [white|]; [|done].
    destruct (checkboxes w !! "combo-brown-noise") as [brown|]; [|done].
    destruct (checkboxes w !! "combo-heartbeat") as [heartbeat|]; [|done].
    destruct (checkboxes w !! "combo-ocean") as [ocean|]; [|done].
    destruct (checkboxes w !! "combo-rain") as [rain|]; [|done].
    destruct (checkboxes w !! "combo-snow") as [snow|]; [|done].
    destruct (checkboxes w !! "combo-forest") as [forest|]; [|done].
    destruct (checkboxes w !! "combo-lullaby") as [lullaby|]; [|done].
    exists white, brown, heartbeat, ocean, rain, snow, forest, lullaby.
    split; [by split_and!|].
    cbn [mbind option_bind] in H. apply (inj Some) in H. subst w'.
    unfold commitResult. cbn [comboSounds set_comboSounds].
    by rewrite playSelected_eq.
  - intros (white & brown & heartbeat & ocean & rain & snow & forest & lullaby
            & (->&->&->&->&->&->&->&->) & ->).
    cbn [mbind option_bind]. f_equal.
    unfold commitResult. cbn [comboSounds set_comboSounds].
    by rewrite playSelected_eq.
Qed.

Lemma commitResult_comboSounds sel w0 :
  comboSounds (commitResult sel w0) = sel.
Proof.
  unfold commitResult. case_match; [|done]. simpl.
  destruct (playSounds_spec (selected sel) (set_comboSounds sel w0))
    as (_ & _ & Hf & _).
  unfold sound_frame in Hf. destruct_and!. done.
Qed.

Lemma stopSelected_comboSounds ks w :
  comboSounds
    (foldl (λ w soundType,
              match Obj.get soundType (comboSounds w) with
              | Some true => stopSound soundType w
              | _ => w
              end) w ks)
  = comboSounds w.
Proof.
  revert w. induction ks as [|k ks IH]; intros w; [done|]. simpl.
  rewrite IH. destruct (Obj.get k (comboSounds w)) as [[]|]; try done.
  rewrite stopSound_eq. by destruct (Obj.get k (activeSounds w)).
Qed.

Lemma uncheck_comboSounds ks w :
  comboSounds
    (foldl (λ w soundType,
              let id := "combo-" +:+ soundType in
              let w := match checkboxes w !! id with
                       | Some _ =>
                           set_checkboxes (<[id := false]> (checkboxes w)) w
                       | None => w
                       end in
              set_comboSounds (Obj.set soundType false (comboSounds w)) w)
           w ks)
  = foldl (λ o k, Obj.set k false o) (comboSounds w) ks.
Proof.
  revert w. induction ks as [|k ks IH]; intros w; [done|]. simpl.
  rewrite IH. simpl. by destruct (checkboxes w !! ("combo-" +:+ k)).
Qed.

Lemma get_set_all (ks : list string) (o : list (string * bool)) k :
  Obj.get k (foldl (λ o k, Obj.set k false o) o ks)
  = if decide (k ∈ ks) then Some false else Obj.get k o.
Proof.
  revert o. induction ks as [|k0 ks IH]; intros o.
  - done.
  - cbn [foldl]. rewrite IH.
    destruct (decide (k ∈ ks)) as [Hin|Hnin];
      destruct (decide (k ∈ k0 :: ks)) as [Hin'|Hnin']; try done.
    + exfalso. apply Hnin'. by right.
    + apply elem_of_cons in Hin' as [->|?]; [|done]. apply get_set_eq.
    + apply get_set_ne. intros ->. apply Hnin'. left.
Qed.

Lemma stopCombo_comboSounds w k :
  Obj.get k (comboSounds (stopCombo w))
  = (λ _, false) <$> Obj.get k (comboSounds w).
Proof.
  unfold stopCombo. cbn [comboSounds set_currentSound set_playing].
  rewrite uncheck_comboSounds, !stopSelected_comboSounds, get_set_all.
  case_decide as Hin.
  - destruct (Obj.get k (comboSounds w)) eqn:E; [done|].
    by apply get_keys in E.
  - apply get_keys in Hin. by rewrite Hin.
Qed.

(** ** C2: the selection after a commit and after a cancel *)

(** C2, as the code has it.  After [stopCombo] every key of the
    selection holds [false].  A commit does not reset the selection: the
    selection it leaves is the eight check box values it read. *)
Theorem selection_after_cancel_and_commit (w : State) :
  (∀ k, Obj.get k (comboSounds (stopCombo w))
        = (λ _, false) <$> Obj.get k (comboSounds w)) ∧
  (∀ w', applyComboSettings w = Some w' →
     ∃ white brown heartbeat ocean rain snow forest lullaby,
       boxesRead w white brown heartbeat ocean rain snow forest lullaby ∧
       comboSounds w'
       = selectionOf white brown heartbeat ocean rain snow forest lullaby).
Proof.
  split; [apply stopCombo_comboSounds|].
  intros w' (white & brown & heartbeat & ocean & rain & snow & forest & lullaby
             & Hb & ->)%applyComboSettings_Some.
  exists white, brown, heartbeat, ocean, rain, snow, forest, lullaby.
  split; [done|]. apply commitResult_comboSounds.
Qed.

Lemma selection_after_cancel_and_commit_witness :
  Obj.get "rain" (comboSounds (stopCombo rainPlaying)) = Some false ∧
  applyComboSettings rainTicked = Some rainCommitted ∧
  comboSounds rainCommitted
  = selectionOf false false false false true false false false.
Proof.
  assert (applyComboSettings rainTicked = Some rainCommitted) as Hrun
    by (vm_compute; reflexivity).
  destruct (selection_after_cancel_and_commit rainPlaying) as [Hcancel _].
  destruct (selection_after_cancel_and_commit rainTicked) as [_ Hcommit].
  destruct (Hcommit rainCommitted Hrun)
    as (white & brown & heartbeat & ocean & rain & snow & forest & lullaby
        & (H1 & H2 & H3 & H4 & H5 & H6 & H7 & H8) & Hc).
  vm_compute in H1, H2, H3, H4, H5, H6, H7, H8.
  injection H1 as <-. injection H2 as <-. injection H3 as <-.
  injection H4 as <-. injection H5 as <-. injection H6 as <-.
  injection H7 as <-. injection H8 as <-.
  split_and!; [exact (Hcancel "rain")|exact Hrun|exact Hc].
Defined.

(** The claim of C2 fails for a commit: with the rain box ticked, the
    selection left by the commit holds [true] for rain. *)
Lemma commit_keeps_selection :
  applyComboSettings rainTicked = Some rainCommitted ∧
  Obj.get "rain" (comboSounds rainCommitted) = Some true.
Proof. split; vm_compute; reflexivity. Qed.

(** ** C1: committing an empty selection *)

(** C1, as the code has it.  A commit with the eight boxes unticked runs
    its teardown first: it is [stopAllSounds], the removal of the playing
    marks, the new all-false selection and the alert, in that order.  So
    the registry is empty afterwards (unchanged only if it was empty),
    nothing is started, the timer is cancelled, and the alert is the last
    event. *)
Theorem empty_commit_stops_everything (w : State) :
  boxesRead w false false false false false false false false →
  ∃ w',
    applyComboSettings w = Some w' ∧
    w' = log (Alert emptySelectionMessage)
           (set_comboSounds
              (selectionOf false false false false false false false false)
              (set_playing ∅ (stopAllSounds w))) ∧
    activeSounds w' = [] ∧
    (activeSounds w = [] → activeSounds w' = activeSounds w) ∧
    trace w'
    = trace w ++
        StopAll :: stopTrace (Obj.keys (activeSounds w)) (activeSounds w) ++
        [Alert emptySelectionMessage] ∧
    started (trace w') = started (trace w) ∧
    timerInterval w' = None ∧ playing w' = ∅.
Proof.
  intros Hb. eexists. split.
  { apply applyComboSettings_Some. do 8 eexists.
    split; [exact Hb|reflexivity]. }
  destruct (stopAllSounds_spec w) as (Ha & Ht & Hi & _).
  pose proof (stopAllSounds_started w) as Hs.
  revert Ha Ht Hi Hs. generalize (stopAllSounds w). intros w0 Ha Ht Hi Hs.
  unfold commitResult. simpl. rewrite Ha, Hi.
  split_and!; try done.
  - rewrite Ht. by rewrite <- app_assoc.
  - rewrite started_app, Hs. apply app_nil_r.
Qed.

Lemma empty_commit_stops_everything_witness :
  ∃ w', applyComboSettings rainPlaying = Some w' ∧ activeSounds w' = [] ∧
        playing w' = ∅.
Proof.
  destruct (empty_commit_stops_everything rainPlaying)
    as (w' & He & _ & Ha & _ & _ & _ & _ & Hp).
  - unfold boxesRead. split_and!; vm_compute; reflexivity.
  - exists w'. split_and!; assumption.
Defined.

(** The claim of C1 fails: with the rain playing, the commit of an empty
    selection ends with the alert and has removed rain from the
    registry. *)
Lemma empty_commit_changes_registry :
  boxesRead rainPlaying false false false false false false false false ∧
  Obj.get "rain" (activeSounds rainPlaying)
  = Some [Source "rainBase"; Stage "rainFilter"; Stage "compressor";
          Stage "rainGain"; IntervalId 1] ∧
  applyComboSettings rainPlaying = Some emptyCommitted ∧
  last (trace emptyCommitted) = Some (Alert emptySelectionMessage) ∧
  Obj.get "rain" (activeSounds emptyCommitted) = None ∧
  activeSounds emptyCommitted ≠ activeSounds rainPlaying.
Proof.
  split; [unfold boxesRead; split_and!; vm_compute; reflexivity|].
  split_and!; [vm_compute; reflexivity..|]. vm_compute. discriminate.
Qed.

(** ** The registry after a commit *)

Lemma keys_set_new {V} k (v : V) o :
  k ∉ Obj.keys o → Obj.keys (Obj.set k v o) = Obj.keys o ++ [k].
Proof.
  unfold Obj.keys. induction o as [|[k' v'] o IH]; [done|].
  rewrite fmap_cons. intros [Hne Hk]%not_elem_of_cons.
  cbn [Obj.set]. rewrite decide_False by done.
  rewrite fmap_cons, IH by done. done.
Qed.

Lemma playSounds_keys ks w :
  NoDup (Obj.keys (activeSounds w) ++ ks) →
  Forall (λ k, is_Some (builder k)) ks →
  Obj.keys (activeSounds (foldl (λ w sound, playSound sound w) w ks))
  = Obj.keys (activeSounds w) ++ ks.
Proof.
  revert w. induction ks as [|k ks IH]; intros w Hnd Hb.
  - simpl. by rewrite app_nil_r.
  - apply Forall_cons in Hb as [[play Hk] Hb]. cbn [foldl].
    destruct (playSound_spec k play w Hk) as (nodes & ? & Ha & _).
    assert (k ∉ Obj.keys (activeSounds w)) as Hfresh.
    { apply NoDup_app in Hnd as (_ & Hdisj & _). intros Hin.
      apply (Hdisj k Hin). left. }
    rewrite IH; [|rewrite Ha, keys_set_new by done; by rewrite <- app_assoc|done].
    rewrite Ha, keys_set_new by done. by rewrite <- app_assoc.
Qed.

Lemma comboNames_NoDup : NoDup comboNames.
Proof. apply (bool_decide_unpack _). vm_compute. exact I. Qed.

Lemma comboNames_builders : Forall (λ k, is_Some (builder k)) comboNames.
Proof.
  unfold comboNames. repeat apply Forall_cons_2; try apply Forall_nil_2;
    eexists; vm_compute; reflexivity.
Qed.

Lemma selected_comboNames white brown heartbeat ocean rain snow forest lullaby :
  selected (selectionOf white brown heartbeat ocean rain snow forest lullaby)
  ⊆ comboNames.
Proof. intros k Hk. unfold selected in Hk. by apply list_elem_of_filter in Hk as [_ Hk]. Qed.

Lemma commitResult_selected sel w0 :
  existsb (λ val, bool_decide (val = true)) (Obj.values sel) = true →
  commitResult sel w0
  = set_comboSettingsHidden true
      (foldl (λ w sound, playSound sound w) (set_comboSounds sel w0)
         (selected sel)).
Proof. intros Hany. unfold commitResult. by rewrite Hany. Qed.

Lemma commitResult_empty sel w0 :
  existsb (λ val, bool_decide (val = true)) (Obj.values sel) = false →
  commitResult sel w0 = log (Alert emptySelectionMessage) (set_comboSounds sel w0).
Proof. intros Hany. unfold commitResult. by rewrite Hany. Qed.

Lemma none_selected sel k :
  existsb (λ val, bool_decide (val = true)) (Obj.values sel) = false →
  Obj.get k sel ≠ Some true.
Proof.
  unfold Obj.values. induction sel as [|[k' v] sel IH]; [done|].
  rewrite fmap_cons. cbn [existsb Obj.get snd].
  intros [Hv Hrest]%orb_false_elim.
  destruct (decide (k = k')); [|by apply IH].
  intros [= ->]. done.
Qed.

Lemma selected_none sel :
  existsb (λ val, bool_decide (val = true)) (Obj.values sel) = false →
  selected sel = [].
Proof.
  intros Hany. unfold selected.
  induction (Obj.keys sel) as [|k ks IH]; [done|].
  rewrite filter_cons_False; [done|]. by apply none_selected.
Qed.

Lemma commit_registry w white brown heartbeat ocean rain snow forest lullaby :
  boxesRead w white brown heartbeat ocean rain snow forest lullaby →
  ∃ w', applyComboSettings w = Some w' ∧
        Obj.keys (activeSounds w')
        = selected
            (selectionOf white brown heartbeat ocean rain snow forest lullaby).
Proof.
  intros Hb. eexists. split.
  { apply applyComboSettings_Some. do 8 eexists.
    split; [exact Hb|reflexivity]. }
  set (sel := selectionOf _ _ _ _ _ _ _ _).
  destruct (stopAllSounds_spec w) as (Ha & _).
  set (w1 := set_comboSounds sel (set_playing ∅ (stopAllSounds w))).
  assert (activeSounds w1 = []) as Ha1 by exact Ha.
  destruct (existsb (λ val, bool_decide (val = true)) (Obj.values sel)) eqn:Hany.
  - rewrite commitResult_selected by done. fold w1. clearbody w1.
    transitivity
      (Obj.keys (activeSounds
                   (foldl (λ w sound, playSound sound w) w1 (selected sel))));
      [done|].
    rewrite playSounds_keys.
    + by rewrite Ha1.
    + rewrite Ha1. apply NoDup_filter. exact comboNames_NoDup.
    + apply Forall_forall. intros k Hk%selected_comboNames.
      by apply (proj1 (Forall_forall _ _) comboNames_builders).
  - rewrite commitResult_empty by done. fold w1.
    rewrite selected_none by done.
    transitivity (Obj.keys (activeSounds w1)); [done|]. by rewrite Ha1.
Qed.

(** ** C6: committing rain and forest *)

Lemma rain_forest_selected :
  selected (selectionOf false false false false true false true false)
  = ["rain"; "forest"].
Proof. vm_compute. reflexivity. Qed.

(** C6.  Whatever was playing, a commit with exactly the rain and forest
    boxes ticked leaves the registry with the keys rain and forest and
    no other. *)
Theorem commit_rain_forest (w : State) :
  boxesRead w false false false false true false true false →
  ∃ w', applyComboSettings w = Some w' ∧
        Obj.keys (activeSounds w') = ["rain"; "forest"].
Proof.
  intros Hb. destruct (commit_registry w _ _ _ _ _ _ _ _ Hb) as (w' & He & Hk).
  exists w'. split; [done|]. by rewrite Hk, rain_forest_selected.
Qed.

Lemma commit_rain_forest_witness :
  Obj.keys (activeSounds rainForestTicked) = ["ocean"] ∧
  ∃ w', applyComboSettings rainForestTicked = Some w' ∧
        Obj.keys (activeSounds w') = ["rain"; "forest"].
Proof.
  split; [vm_compute; reflexivity|].
  apply (commit_rain_forest rainForestTicked).
  unfold boxesRead. split_and!; vm_compute; reflexivity.
Defined.

(** ** C10: pink noise and the commit *)

Lemma pink_noise_not_combinable : "pink-noise" ∉ comboNames.
Proof. apply (bool_decide_unpack _). vm_compute. exact I. Qed.

Lemma builder_pink_noise : builder "pink-noise" = Some playPinkNoise.
Proof. vm_compute. reflexivity. Qed.

Lemma selection_no_pink white brown heartbeat ocean rain snow forest lullaby :
  Obj.get "pink-noise"
    (selectionOf white brown heartbeat ocean rain snow forest lullaby) = None.
Proof. vm_compute. reflexivity. Qed.

Lemma commitResult_trace sel w0 :
  (∀ k, k ∈ selected sel → k ≠ "pink-noise") →
  ∃ evs, trace (commitResult sel w0) = trace w0 ++ evs ∧
         "pinkNoise" ∉ started evs.
Proof.
  intros Hsel. unfold commitResult. case_match.
  - destruct (playSounds_spec (selected sel) (set_comboSounds sel w0))
      as (_ & (evs & Ht & _ & Hp) & _).
    exists evs. split; [exact Ht|]. intros Hin%Hp. by apply Hsel in Hin.
  - exists [Alert emptySelectionMessage]. split; [done|].
    by intros ?%elem_of_nil.
Qed.

(** C10.  A commit never starts pink noise, whatever boxes the page has
    and however they are ticked: the selection it leaves has no
    pink-noise key, the registry has no pink-noise entry afterwards, and
    the generator of pink noise is not among those started.  Pink noise
    has a builder all the same, and the constructor's selection has the
    key. *)
Theorem commit_never_starts_pink_noise (w w' : State) :
  applyComboSettings w = Some w' →
  Obj.get "pink-noise" (comboSounds w') = None ∧
  Obj.get "pink-noise" (activeSounds w') = None ∧
  (∃ evs, trace w' = trace w ++ evs ∧ "pinkNoise" ∉ started evs) ∧
  builder "pink-noise" = Some playPinkNoise ∧
  ∀ page_tiles boxes susp t0,
    Obj.get "pink-noise" (comboSounds (constructor page_tiles boxes susp t0))
    = Some false.
Proof.
  intros He. pose proof He as He'.
  apply applyComboSettings_Some in He'
    as (white & brown & heartbeat & ocean & rain & snow & forest & lullaby
        & Hb & Hw').
  assert (∀ k, k ∈ selected (selectionOf white brown heartbeat ocean rain snow
                               forest lullaby) → k ≠ "pink-noise") as Hsel.
  { intros k Hk%selected_comboNames ->. by apply pink_noise_not_combinable. }
  split_and!.
  - rewrite Hw', commitResult_comboSounds. apply selection_no_pink.
  - destruct (commit_registry w _ _ _ _ _ _ _ _ Hb) as (w'' & He'' & Hk).
    assert (w'' = w') as -> by congruence.
    apply get_keys. rewrite Hk. intros Hin. by apply (Hsel _ Hin).
  - destruct (commitResult_trace _ (set_playing ∅ (stopAllSounds w)) Hsel)
      as (evs & Ht & Hp).
    destruct (stopAllSounds_spec w) as (_ & Ht0 & _).
    eexists. rewrite Hw', Ht. cbn [trace set_playing]. rewrite Ht0.
    rewrite <- app_assoc. split; [done|].
    rewrite started_app.
    change (started (StopAll :: ?l)) with (started l).
    by rewrite started_stopTrace.
  - exact builder_pink_noise.
  - done.
Qed.

Lemma commit_never_starts_pink_noise_witness :
  checkboxes pinkTicked !! "combo-pink-noise" = Some true ∧
  applyComboSettings pinkTicked = Some pinkCommitted ∧
  Obj.get "pink-noise" (activeSounds pinkCommitted) = None.
Proof.
  assert (applyComboSettings pinkTicked = Some pinkCommitted) as Hrun
    by (vm_compute; reflexivity).
  destruct (commit_never_starts_pink_noise pinkTicked pinkCommitted Hrun)
    as (_ & Ha & _).
  split_and!; [vm_compute; reflexivity|exact Hrun|exact Ha].
Defined.

(** ** Tiles *)

Lemma combo_no_builder k : is_Some (builder k) → k ≠ "combo".
Proof. intros [play Hk] ->. vm_compute in Hk. discriminate. Qed.

Lemma toggleSound_start soundType tile w :
  soundType ≠ "combo" → tile ∉ playing w →
  toggleSound soundType tile w
  = set_currentSound (Some soundType)
      (playSound soundType (set_playing ∅ (stopAllSounds w))).
Proof.
  intros Hc Ht. unfold toggleSound.
  by rewrite (decide_False (P := tile ∈ playing w)),
    (decide_True (P := soundType ≠ "combo")),
    (decide_False (P := soundType = "combo")).
Qed.

Lemma toggleSound_stop soundType tile w :
  soundType ≠ "combo" → tile ∈ playing w →
  toggleSound soundType tile w
  = set_playing (playing w ∖ {[tile]}) (stopSound soundType w).
Proof.
  intros Hc Ht. unfold toggleSound.
  rewrite (decide_True (P := tile ∈ playing w)),
    (decide_False (P := soundType = "combo")) by done.
  rewrite stopSound_eq. by destruct (Obj.get soundType (activeSounds w)).
Qed.

Lemma clickTile_tile soundType w :
  soundType ≠ "combo" → clickTile soundType w = toggleSound soundType soundType w.
Proof. intros Hc. unfold clickTile. by rewrite decide_False. Qed.

Lemma torn_down_registry w : activeSounds (set_playing ∅ (stopAllSounds w)) = [].
Proof. by destruct (stopAllSounds_spec w) as (Ha & _). Qed.

Lemma clickTile_length w soundType :
  (length (activeSounds w) ≤ 1)%nat →
  (length (activeSounds (clickTile soundType w)) ≤ 1)%nat.
Proof.
  intros Hw. destruct (decide (soundType = "combo")) as [->|Hc].
  - unfold clickTile. by rewrite decide_True.
  - rewrite clickTile_tile by done.
    destruct (decide (soundType ∈ playing w)) as [Hp|Hp].
    + rewrite toggleSound_stop by done. cbn [activeSounds set_playing].
      rewrite stopSound_activeSounds.
      pose proof (del_length soundType (activeSounds w)). lia.
    + rewrite toggleSound_start by done. cbn [activeSounds set_currentSound].
      apply playSound_length, torn_down_registry.
Qed.

Lemma setTimer_activeSounds minutes w :
  activeSounds (setTimer minutes w) = activeSounds w.
Proof.
  destruct (clearTimer_spec w) as (_ & _ & _ & Ha & _).
  unfold setTimer. by case_bool_decide.
Qed.

Lemma fire_registry id chance w :
  activeSounds (fire id chance w) = activeSounds w ∨
  activeSounds (fire id chance w) = [].
Proof.
  unfold fire, schedulerTick, playNextNote.
  destruct (timers w !! id) as [[]|]; try by left.
  - unfold countdownTick. case_bool_decide; [right|by left].
    destruct (clearTimer_spec
                (set_playing ∅ (stopAllSounds (updateTimerDisplay w))))
      as (_ & _ & _ & -> & _).
    apply torn_down_registry.
  - left. by destruct (Obj.get "rain" (activeSounds w)), chance.
  - left. by destruct (Obj.get "forest" (activeSounds w)), chance.
  - left. by destruct (Obj.get "forest" (activeSounds w)), chance.
  - left. simpl. by destruct (Obj.get "lullaby" (activeSounds w)).
Qed.

Lemma step_length i w :
  (length (activeSounds w) ≤ 1)%nat →
  (length (activeSounds (step i w)) ≤ 1)%nat.
Proof.
  intros Hw. destruct i as [soundType|minutes|k]; simpl.
  - by apply clickTile_length.
  - by rewrite setTimer_activeSounds.
  - unfold runTick.
    destruct (fire_registry (timer_id k) (random_hit k) (set_now (at_time k) w))
      as [->| ->]; simpl; lia.
Qed.

Lemma session_length intents w :
  (length (activeSounds w) ≤ 1)%nat →
  (length (activeSounds (session intents w)) ≤ 1)%nat.
Proof.
  revert w. induction intents as [|i intents IH]; intros w Hw; [done|].
  simpl. by apply IH, step_length.
Qed.

(** ** C5: exclusive mode *)

(** C5.  While no combination is committed, the registry never holds
    more than one category: this is so after every session of tile
    clicks, timer buttons and timer callbacks on a new machine.  A click
    on a tile that is not playing runs [stopAllSounds] (after which the
    registry is empty) and the removal of the playing marks, and only
    then [playSound]; the registry then holds the clicked category alone
    or, if it has no builder, nothing. *)
Theorem exclusive_mode_one_category :
  (∀ page_tiles boxes susp t0 intents,
     (length (activeSounds
                (session intents (constructor page_tiles boxes susp t0))) ≤ 1)%nat) ∧
  (∀ w soundType,
     soundType ≠ "combo" → soundType ∉ playing w →
     clickTile soundType w
     = set_currentSound (Some soundType)
         (playSound soundType (set_playing ∅ (stopAllSounds w))) ∧
     activeSounds (stopAllSounds w) = [] ∧
     ∀ k, k ≠ soundType → Obj.get k (activeSounds (clickTile soundType w)) = None).
Proof.
  split.
  - intros. apply session_length. simpl. lia.
  - intros w soundType Hc Hp. rewrite clickTile_tile, toggleSound_start by done.
    split_and!; [done|by destruct (stopAllSounds_spec w) as (Ha & _)|].
    intros k Hk. cbn [activeSounds set_currentSound].
    destruct (playSounds_spec [soundType] (set_playing ∅ (stopAllSounds w)))
      as (Hget & _).
    cbn [foldl] in Hget. rewrite Hget.
    + by rewrite torn_down_registry.
    + by intros ?%list_elem_of_singleton.
Qed.

Lemma exclusive_mode_one_category_witness :
  Obj.keys (activeSounds rainPlaying) = ["rain"] ∧
  Obj.get "rain" (activeSounds (clickTile "ocean" rainPlaying)) = None ∧
  (length (activeSounds
             (session [ClickTile "rain"; ClickTile "ocean"; ClickTimer 15;
                       ClickTile "snow"] freshMachine)) ≤ 1)%nat.
Proof.
  destruct exclusive_mode_one_category as [Hsession Hclick].
  split_and!.
  - vm_compute. reflexivity.
  - destruct (Hclick rainPlaying "ocean") as (_ & _ & Hother).
    + discriminate.
    + apply (bool_decide_unpack _). vm_compute. exact I.
    + apply Hother. discriminate.
  - apply Hsession.
Defined.

(** ** C8: start then stop *)

Lemma stopSound_started k w :
  started (trace (stopSound k w)) = started (trace w).
Proof.
  rewrite stopSound_eq. destruct (Obj.get k (activeSounds w)); [|done].
  simpl. rewrite started_app, started_stopEvents. apply app_nil_r.
Qed.

Lemma del_only_key {V} k (o : list (string * V)) :
  Obj.keys o = [k] → Obj.del k o = [].
Proof.
  destruct o as [|[k' v] [|? ?]]; try done.
  intros [= ->]. simpl. by rewrite decide_True.
Qed.

Lemma builder_sources k play w :
  builder k = Some play →
  ∃ nodes, Obj.get k (activeSounds (play w)) = Some nodes ∧
           trace (play w) = trace w ++ (Start <$> sources nodes).
Proof.
  intros Hb. builder_cases Hb;
    try (eexists; split; [apply get_set_eq|]; simpl;
         by rewrite <- ?app_assoc).
  unfold playLullaby, playNextNote. simpl. rewrite get_set_eq. simpl.
  eexists. split; [apply get_set_eq|done].
Qed.

Lemma stopped_app tr1 tr2 : stopped (tr1 ++ tr2) = stopped tr1 ++ stopped tr2.
Proof. apply omap_app. Qed.

Lemma stopped_stopEvents nodes : stopped (stopEvents nodes) = sources nodes.
Proof.
  induction nodes as [|n nodes IH]; [done|].
  unfold stopEvents in *. rewrite bind_cons, stopped_app, IH.
  by destruct n.
Qed.

Lemma builder_sources_ne k play w nodes :
  builder k = Some play →
  Obj.get k (activeSounds (play w)) = Some nodes → sources nodes ≠ [].
Proof.
  intros Hb. builder_cases Hb;
    try (simpl; rewrite get_set_eq; by intros [= <-]).
  unfold playLullaby, playNextNote. simpl. rewrite get_set_eq. simpl.
  rewrite get_set_eq. by intros [= <-].
Qed.

Lemma playSound_sources k play w :
  builder k = Some play →
  ∃ nodes, Obj.get k (activeSounds (playSound k w)) = Some nodes ∧
           sources nodes ≠ [] ∧
           trace (playSound k w)
           = trace w ++ (if suspended w then [Resume] else []) ++
               (Start <$> sources nodes).
Proof.
  intros Hb. unfold playSound. rewrite Hb.
  destruct (builder_sources k play (if suspended w then log Resume w else w) Hb)
    as (nodes & Hget & Ht).
  pose proof (builder_sources_ne k play _ nodes Hb Hget) as Hne.
  exists nodes.
  assert (trace (if suspended w then log Resume w else w)
          = trace w ++ (if suspended w then [Resume] else [])) as Ht0.
  { destruct (suspended w); [done|]. by rewrite app_nil_r. }
  rewrite Ht0, <- app_assoc in Ht.
  revert Hget Ht. generalize (play (if suspended w then log Resume w else w)).
  intros w1 Hget Ht. by case_decide.
Qed.

Lemma get_only_key {V} k (o : list (string * V)) :
  Obj.keys o = [k] → ∃ v, Obj.get k o = Some v.
Proof.
  destruct o as [|[k' v] [|? ?]]; try done.
  intros [= ->]. exists v. simpl. by rewrite decide_True.
Qed.

Lemma stopEvents_releases nodes :
  (∀ name, Source name ∈ nodes → Stop name ∈ stopEvents nodes) ∧
  (∀ name, Stage name ∈ nodes → Disconnect name ∈ stopEvents nodes).
Proof.
  unfold stopEvents. split; intros name Hin; apply list_elem_of_bind;
    eexists; (split; [|exact Hin]); simpl; apply list_elem_of_here.
Qed.

(** C8.  For a category [C] with a builder, [playSound C] followed by
    [stopSound C] leaves the registry as it was before, without [C]: on
    an empty registry that is the empty registry; the start registers
    handles with at least one generator and starts those generators, and
    the stop calls [stop] on each of them and [disconnect] on the other
    stages, in the order of the array.  A click on the tile of [C] while
    it is not playing makes [C] the one registered category and marks
    its tile; and toggling [C] while it is the one registered category
    and its tile is marked stops it: every generator among its handles
    is stopped and every other stage disconnected, nothing else is
    logged, the registry is empty, the mark is gone, and no generator
    has been started. *)
Theorem start_then_stop_leaves_empty (C : string) (w : State) :
  is_Some (builder C) →
  activeSounds (stopSound C (playSound C w)) = Obj.del C (activeSounds w) ∧
  (activeSounds w = [] → activeSounds (stopSound C (playSound C w)) = []) ∧
  (∃ nodes,
     Obj.get C (activeSounds (playSound C w)) = Some nodes ∧
     sources nodes ≠ [] ∧
     trace (playSound C w)
     = trace w ++ (if suspended w then [Resume] else []) ++
         (Start <$> sources nodes) ∧
     trace (stopSound C (playSound C w))
     = trace (playSound C w) ++ stopEvents nodes ∧
     stopped (stopEvents nodes) = sources nodes) ∧
  (C ∈ tiles w → C ∉ playing w →
     Obj.keys (activeSounds (toggleSound C C w)) = [C] ∧
     C ∈ playing (toggleSound C C w)) ∧
  (C ∈ playing w → Obj.keys (activeSounds w) = [C] →
     activeSounds (toggleSound C C w) = [] ∧
     (C ∉ playing (toggleSound C C w)) ∧
     started (trace (toggleSound C C w)) = started (trace w) ∧
     ∃ nodes,
       Obj.get C (activeSounds w) = Some nodes ∧
       trace (toggleSound C C w) = trace w ++ stopEvents nodes ∧
       stopped (stopEvents nodes) = sources nodes ∧
       (∀ name, Source name ∈ nodes →
                Stop name ∈ trace (toggleSound C C w)) ∧
       (∀ name, Stage name ∈ nodes →
                Disconnect name ∈ trace (toggleSound C C w))).
Proof.
  intros HC. pose proof (combo_no_builder C HC) as Hcombo.
  destruct HC as [play Hb].
  assert (activeSounds (stopSound C (playSound C w))
          = Obj.del C (activeSounds w)) as Hdel.
  { rewrite stopSound_activeSounds.
    destruct (playSound_spec C play w Hb) as (nodes & ? & -> & _).
    apply del_set. }
  split_and!.
  - exact Hdel.
  - intros He. by rewrite Hdel, He.
  - destruct (playSound_sources C play w Hb) as (nodes & Hget & Hne & Ht).
    exists nodes. split_and!; [exact Hget|exact Hne|exact Ht| |].
    + by rewrite stopSound_eq, Hget.
    + apply stopped_stopEvents.
  - intros Ht Hp. rewrite toggleSound_start by done.
    cbn [activeSounds playing set_currentSound].
    destruct (playSound_spec C play (set_playing ∅ (stopAllSounds w)) Hb)
      as (nodes & ? & -> & _ & _ & -> & _).
    rewrite torn_down_registry.
    assert (tiles (set_playing ∅ (stopAllSounds w)) = tiles w) as Htl.
    { by destruct (stopAllSounds_spec w) as (_&_&_&_&_&_&_&_&Htl&_). }
    rewrite Htl, decide_True by done. split; [done|].
    by apply elem_of_union_l, elem_of_singleton.
  - intros Hp Hk. rewrite toggleSound_stop by done.
    cbn [activeSounds playing trace set_playing].
    rewrite stopSound_activeSounds, stopSound_started.
    split_and!; [by apply del_only_key| |done|].
    + intros [_ Hn]%elem_of_difference. by apply Hn, elem_of_singleton.
    + destruct (get_only_key C (activeSounds w) Hk) as [nodes Hget].
      exists nodes.
      assert (trace (stopSound C w) = trace w ++ stopEvents nodes) as Htr.
      { by rewrite stopSound_eq, Hget. }
      destruct (stopEvents_releases nodes) as [Hstop Hdisc].
      split_and!; [exact Hget|exact Htr|apply stopped_stopEvents| |].
      * intros name Hin. rewrite Htr. apply elem_of_app. right.
        by apply Hstop.
      * intros name Hin. rewrite Htr. apply elem_of_app. right.
        by apply Hdisc.
Qed.

Lemma start_then_stop_leaves_empty_witness :
  activeSounds (stopSound "rain" (playSound "rain" freshMachine)) = [] ∧
  Obj.keys (activeSounds (toggleSound "rain" "rain" freshMachine)) = ["rain"] ∧
  activeSounds (toggleSound "rain" "rain" rainPlaying) = [] ∧
  Stop "rainBase" ∈ trace (toggleSound "rain" "rain" rainPlaying).
Proof.
  destruct (start_then_stop_leaves_empty "rain" freshMachine)
    as (_ & H1 & _ & H2 & _); [by eexists; vm_compute|].
  destruct (start_then_stop_leaves_empty "rain" rainPlaying)
    as (_ & _ & _ & _ & H3); [by eexists; vm_compute|].
  assert (C8_marked : "rain" ∈ playing rainPlaying)
    by (apply (bool_decide_unpack _); vm_compute; exact I).
  assert (C8_keys : Obj.keys (activeSounds rainPlaying) = ["rain"])
    by (vm_compute; reflexivity).
  destruct (H3 C8_marked C8_keys)
    as (Hempty & _ & _ & nodes & Hget & _ & _ & Hstop & _).
  split_and!.
  - apply H1. reflexivity.
  - apply H2; apply (bool_decide_unpack _); vm_compute; exact I.
  - exact Hempty.
  - apply Hstop.
    assert (Obj.get "rain" (activeSounds rainPlaying)
            = Some [Source "rainBase"; Stage "rainFilter"; Stage "compressor";
                    Stage "rainGain"; IntervalId 1%positive]) as Hrain
      by (vm_compute; reflexivity).
    rewrite Hrain in Hget. injection Hget as <-. apply list_elem_of_here.
Defined.

(** ** C3: identifiers without a builder *)

(** C3, for [playSound].  A call of [playSound] with an identifier that
    has no builder changes nothing but the trace, to which it adds the
    warning (after the resume request, if the context was suspended): the
    registry and the playing marks are what they were, nothing is
    started, stopped or disconnected, and the call returns. *)
Theorem unknown_playSound_is_noop (k : string) (w : State) :
  builder k = None →
  playSound k w
  = set_trace
      (trace w ++ (if suspended w then [Resume] else []) ++
         [Warn "Unknown sound type:" k]) w ∧
  activeSounds (playSound k w) = activeSounds w ∧
  playing (playSound k w) = playing w ∧
  started (trace (playSound k w)) = started (trace w).
Proof.
  intros Hb. rewrite playSound_unknown by done.
  assert (log (Warn "Unknown sound type:" k)
            (if suspended w then log Resume w else w)
          = set_trace
              (trace w ++ (if suspended w then [Resume] else []) ++
                 [Warn "Unknown sound type:" k]) w) as ->.
  { destruct (suspended w); unfold log, set_trace; simpl;
      by rewrite <- ?app_assoc. }
  split_and!; try done. simpl. rewrite started_app.
  destruct (suspended w); simpl; apply app_nil_r.
Qed.

Lemma unknown_playSound_is_noop_witness :
  activeSounds (playSound "thunder" rainPlaying) = activeSounds rainPlaying ∧
  playing (playSound "thunder" rainPlaying) = playing rainPlaying.
Proof.
  destruct (unknown_playSound_is_noop "thunder" rainPlaying) as (_ & Ha & Hp & _).
  - vm_compute. reflexivity.
  - by split.
Defined.

(** The claim of C3 fails for a request made through [toggleSound]: with
    the rain playing, a click on a tile whose identifier has no builder
    stops the rain and removes its playing mark before the warning. *)
Lemma unknown_toggle_stops_rain :
  builder "thunder" = None ∧
  Obj.keys (activeSounds rainPlaying) = ["rain"] ∧
  playing rainPlaying = {["rain"]} ∧
  activeSounds (toggleSound "thunder" "thunder" rainPlaying) = [] ∧
  playing (toggleSound "thunder" "thunder" rainPlaying) = ∅ ∧
  trace (toggleSound "thunder" "thunder" rainPlaying)
  = trace rainPlaying ++
      [StopAll; Stop "rainBase"; Disconnect "rainFilter";
       Disconnect "compressor"; Disconnect "rainGain";
       Warn "Unknown sound type:" "thunder"].
Proof. split_and!; vm_compute; reflexivity. Qed.

(** ** Reachable states

    [timers_ok], the hypothesis of the timer theorems, holds on a new
    machine and is kept by every entry point. *)

Lemma stopSound_timers_ok k w : timers_ok w → timers_ok (stopSound k w).
Proof.
  intros Hok. rewrite stopSound_eq.
  by destruct (Obj.get k (activeSounds w)).
Qed.

Lemma clickTile_timers_ok soundType w :
  timers_ok w → timers_ok (clickTile soundType w).
Proof.
  intros Hok. destruct (decide (soundType = "combo")) as [->|Hc].
  - unfold clickTile. by rewrite decide_True.
  - rewrite clickTile_tile by done.
    destruct (decide (soundType ∈ playing w)) as [Hp|Hp].
    + rewrite toggleSound_stop by done.
      exact (stopSound_timers_ok soundType w Hok).
    + rewrite toggleSound_start by done.
      destruct (stopAllSounds_unarmed w Hok) as (_ & _ & Hok').
      assert (timers_ok (set_playing ∅ (stopAllSounds w))) as Hok''
        by exact Hok'.
      exact (playSound_timers_ok soundType _ Hok'').
Qed.

Lemma step_timers_ok i w : timers_ok w → timers_ok (step i w).
Proof.
  intros Hok. destruct i as [soundType|minutes|k]; simpl.
  - by apply clickTile_timers_ok.
  - exact (setTimer_timers_ok minutes w Hok).
  - by apply runTick_timers_ok.
Qed.

Lemma session_timers_ok intents page_tiles boxes susp t0 :
  timers_ok (session intents (constructor page_tiles boxes susp t0)).
Proof.
  assert (∀ w, timers_ok w → timers_ok (session intents w)) as Hall.
  { induction intents as [|i intents IH]; intros w Hok; [done|].
    simpl. by apply IH, step_timers_ok. }
  apply Hall, constructor_timers_ok.
Qed.

Lemma applyComboSettings_timers_ok w w' :
  applyComboSettings w = Some w' → timers_ok w → timers_ok w'.
Proof.
  intros (white & brown & heartbeat & ocean & rain & snow & forest & lullaby
          & _ & ->)%applyComboSettings_Some Hok.
  destruct (stopAllSounds_unarmed w Hok) as (_ & _ & Hok').
  set (sel := selectionOf _ _ _ _ _ _ _ _).
  destruct (playSounds_spec (selected sel)
              (set_comboSounds sel (set_playing ∅ (stopAllSounds w))))
    as (_ & _ & _ & Hkeep).
  unfold commitResult. case_match; [|exact Hok'].
  exact (Hkeep Hok').
Qed.

(** * Further properties of the code *)

(** ** The countdown display *)

Lemma updateTimerDisplay_text w :
  timeRemaining (updateTimerDisplay w)
  = displayText (Z.max 0 (timerEndTime w - now w)).
Proof. reflexivity. Qed.

Lemma displayText_seconds s : displayText (1000 * s) = clockText s.
Proof.
  unfold displayText, clockText.
  change (60 * 1000) with (1000 * 60).
  rewrite Z.div_mul_cancel_l by lia.
  rewrite Z.mul_mod_distr_l by lia.
  by rewrite (Z.mul_comm 1000), Z.div_mul by lia.
Qed.

Lemma runTick_countdown_early id deadline t w :
  armedAt id deadline w → t < deadline →
  runTick (Tick t id false) w = updateTimerDisplay (set_now t w).
Proof.
  intros (_ & _ & Hid & He) Ht. unfold runTick, fire. simpl. rewrite Hid.
  unfold countdownTick. simpl. rewrite bool_decide_eq_false_2 by lia. done.
Qed.

Lemma advanceSeconds_display n id deadline w :
  armedAt id deadline w → (0 < n)%nat →
  now w + 1000 * Z.of_nat n < deadline →
  let w' := advanceSeconds n id w in
  armedAt id deadline w' ∧ now w' = now w + 1000 * Z.of_nat n ∧
  timerDisplayHidden w' = timerDisplayHidden w ∧
  timeRemaining w' = displayText (deadline - now w').
Proof.
  revert w. induction n as [|n IH]; intros w Ha Hn Hlt; [lia|].
  cbn [advanceSeconds].
  rewrite (runTick_countdown_early id deadline) by (done || lia).
  set (w1 := updateTimerDisplay (set_now (now w + 1000) w)).
  assert (armedAt id deadline w1) as Ha1 by exact Ha.
  assert (now w1 = now w + 1000) as Hnow1 by reflexivity.
  destruct n as [|n].
  - cbn [advanceSeconds]. split_and!; [done|rewrite Hnow1; lia|done|].
    subst w1. rewrite updateTimerDisplay_text.
    destruct Ha as (_ & _ & _ & He). cbn [timerEndTime now set_now updateTimerDisplay set_timeRemaining].
    rewrite He. f_equal. lia.
  - destruct (IH w1 Ha1) as (Ha' & Hnow' & Hh & Ht); [lia|rewrite Hnow1; lia|].
    split_and!; [done|rewrite Hnow', Hnow1; lia|by rewrite Hh|done].
Qed.

Lemma setTimer_eq minutes w :
  minutes ≠ 0 →
  setTimer minutes w
  = let w0 := updateTimerDisplay
                (set_timerDisplayHidden false
                   (set_timerEndTime (now (clearTimer w) + minutes * 60 * 1000)
                      (set_timerDuration (minutes * 60 * 1000) (clearTimer w)))) in
    set_timerInterval (Some (nextTimer w0))
      (set_nextTimer (nextTimer w0 + 1)%positive
         (set_timers (<[nextTimer w0 := Countdown]> (timers w0)) w0)).
Proof.
  intros Hm. unfold setTimer. rewrite bool_decide_eq_false_2 by done.
  generalize (clearTimer w). intros w0. reflexivity.
Qed.

Lemma armed_display_fields (i : option positive) (n : positive)
    (t : gmap positive callback) w :
  timeRemaining (set_timerInterval i (set_nextTimer n (set_timers t w)))
  = timeRemaining w ∧
  timerDisplayHidden (set_timerInterval i (set_nextTimer n (set_timers t w)))
  = timerDisplayHidden w.
Proof. done. Qed.

Lemma setTimer_display m w :
  timers_ok w → 0 < m →
  armedAt (nextTimer w) (now w + m * 60 * 1000) (setTimer m w) ∧
  now (setTimer m w) = now w ∧
  timerDisplayHidden (setTimer m w) = false ∧
  timeRemaining (setTimer m w) = displayText (m * 60 * 1000).
Proof.
  intros Hok Hm.
  destruct (setTimer_arms m w Hok) as (Hok1 & Hi & Hcd & He & _ & _ & Hnow);
    [lia|].
  split_and!; [unfold armedAt; split_and!; [done|done|by apply Hcd|done]|done| |].
  - rewrite setTimer_eq by lia. cbv zeta.
    rewrite (proj2 (armed_display_fields _ _ _ _)).
    generalize (clearTimer w). intros w0. reflexivity.
  - rewrite setTimer_eq by lia. cbv zeta.
    rewrite (proj1 (armed_display_fields _ _ _ _)), updateTimerDisplay_text.
    generalize (clearTimer w). intros w0.
    assert (∀ a (v : State), timerEndTime
              (set_timerDisplayHidden false (set_timerEndTime a v)) = a)
      as -> by done.
    assert (∀ a b (v : State), now
              (set_timerDisplayHidden false
                 (set_timerEndTime a (set_timerDuration b v))) = now v)
      as -> by done.
    f_equal. lia.
Qed.

(** X1.  While a timer armed for [m > 0] minutes counts down, the
    display is shown and reads the remaining time as minutes and
    seconds: right after arming and after every whole second [n] before
    the deadline, the text is the clock text of [60 m - n] seconds. *)
Theorem countdown_display (w : State) (m : Z) (n : nat) :
  timers_ok w → 0 < m → Z.of_nat n < 60 * m →
  let w' := advanceSeconds n (nextTimer w) (setTimer m w) in
  timeRemaining w' = clockText (60 * m - Z.of_nat n) ∧
  timerDisplayHidden w' = false ∧
  timerInterval w' = Some (nextTimer w).
Proof.
  intros Hok Hm Hn.
  destruct (setTimer_display m w Hok Hm) as (Ha & Hnow & Hhid & Htext).
  destruct n as [|n].
  - cbn [advanceSeconds]. rewrite Htext, Z.sub_0_r.
    split_and!; [|done|by destruct Ha as (_ & ? & _)].
    rewrite <- displayText_seconds. f_equal. lia.
  - destruct (advanceSeconds_display (S n) (nextTimer w)
                (now w + m * 60 * 1000) (setTimer m w) Ha)
      as (Ha' & Hnow' & Hh & Ht); [lia|rewrite Hnow; lia|].
    split_and!; [|by rewrite Hh|by destruct Ha' as (_ & ? & _)].
    rewrite Ht, Hnow', Hnow, <- displayText_seconds. f_equal. lia.
Qed.

Lemma countdown_display_witness :
  timeRemaining
    (advanceSeconds 5 (nextTimer freshMachine) (setTimer 15 freshMachine))
  = "14:55".
Proof.
  destruct (countdown_display freshMachine 15 5) as (Htext & _).
  - apply constructor_timers_ok.
  - lia.
  - lia.
  - rewrite Htext. vm_compute. reflexivity.
Defined.

(** ** Expiry *)

Lemma clearTimer_page w :
  timeRemaining (clearTimer w) = timeRemaining w ∧
  timerDisplayHidden (clearTimer w) = true ∧
  activeTimerBtn (clearTimer w) = {[0]}.
Proof. unfold clearTimer. by destruct (timerInterval w). Qed.

Lemma stopAllSounds_page w :
  timeRemaining (stopAllSounds w) = timeRemaining w ∧
  timerDisplayHidden (stopAllSounds w) = true ∧
  activeTimerBtn (stopAllSounds w) = {[0]}.
Proof.
  rewrite stopAllSounds_eq.
  generalize (trace w ++
    StopAll :: stopTrace (Obj.keys (activeSounds w)) (activeSounds w)).
  intros tr.
  destruct (clearTimer_page (set_activeSounds [] (set_trace tr w)))
    as (-> & -> & ->).
  done.
Qed.

Lemma countdownTick_expired_eq w :
  timerEndTime w ≤ now w →
  countdownTick w
  = clearTimer (set_playing ∅ (stopAllSounds (updateTimerDisplay w))).
Proof.
  intros Hle. unfold countdownTick.
  assert (timerEndTime (updateTimerDisplay w) = timerEndTime w) as -> by done.
  assert (now (updateTimerDisplay w) = now w) as -> by done.
  by rewrite bool_decide_eq_true_2.
Qed.

(** X2.  The tick at which an armed countdown comes due tears everything
    down at once, however many categories are registered: the registry
    is empty, no tile is marked playing, the display reads 00:00 and is
    hidden, the 0 button is the active one and no countdown is stored.
    The pending combination selection is not touched. *)
Theorem expiry_tears_down (id : positive) (deadline : Z) (k : tick) (w : State) :
  armedAt id deadline w → expires id deadline k →
  let w' := runTick k w in
  activeSounds w' = [] ∧ playing w' = ∅ ∧
  timeRemaining w' = "00:00" ∧ timerDisplayHidden w' = true ∧
  activeTimerBtn w' = {[0]} ∧ timerInterval w' = None ∧
  comboSounds w' = comboSounds w.
Proof.
  intros (Hok & Hi & Hid & He) [Hk Hle]. unfold runTick, fire.
  assert (timers (set_now (at_time k) w) !! timer_id k = Some Countdown) as ->
    by (by rewrite Hk).
  rewrite countdownTick_expired_eq by (simpl; lia).
  set (w0 := updateTimerDisplay (set_now (at_time k) w)).
  assert (timeRemaining w0 = displayText 0) as Htext.
  { subst w0. rewrite updateTimerDisplay_text. f_equal. simpl. lia. }
  assert (comboSounds w0 = comboSounds w) as Hcs0 by done.
  clearbody w0.
  destruct (stopAllSounds_spec w0)
    as (Ha & _ & _ & _ & _ & _ & Hcs & _).
  destruct (stopAllSounds_page w0) as (Htr & _ & _).
  revert Ha Hcs Htr. generalize (stopAllSounds w0). intros w1 Ha Hcs Htr.
  destruct (clearTimer_spec (set_playing ∅ w1))
    as (Hi' & _ & _ & Ha' & _ & Hp' & Hcs' & _).
  destruct (clearTimer_page (set_playing ∅ w1)) as (Htr' & Hh' & Hb').
  rewrite Ha', Hp', Htr', Hh', Hb', Hi', Hcs'.
  split_and!; try done.
  - change (timeRemaining w1 = "00:00"). rewrite Htr, Htext.
    vm_compute. reflexivity.
  - change (comboSounds w1 = comboSounds w). by rewrite Hcs, Hcs0.
Qed.

Lemma expiry_tears_down_witness :
  Obj.keys (activeSounds (setTimer 1 rainPlaying)) = ["rain"] ∧
  activeSounds (runTick (Tick 60000 2 false) (setTimer 1 rainPlaying)) = [] ∧
  timeRemaining (runTick (Tick 60000 2 false) (setTimer 1 rainPlaying))
  = "00:00".
Proof.
  split; [vm_compute; reflexivity|].
  destruct (expiry_tears_down 2 60000 (Tick 60000 2 false)
              (setTimer 1 rainPlaying)) as (Ha & _ & Ht & _).
  - destruct (setTimer_display 1 rainPlaying) as (Harmed & _).
    + apply clickTile_timers_ok, constructor_timers_ok.
    + lia.
    + exact Harmed.
  - split; [reflexivity|simpl; lia].
  - by split.
Defined.

(** ** The timer and the tiles *)

Lemma sound_frame_timer w w' :
  sound_frame w w' →
  timerInterval w' = timerInterval w ∧
  timerDisplayHidden w' = timerDisplayHidden w ∧
  activeTimerBtn w' = activeTimerBtn w.
Proof. unfold sound_frame. intros ?. destruct_and!. done. Qed.

Lemma torn_down_timer w :
  timers_ok w →
  let w0 := set_playing ∅ (stopAllSounds w) in
  timers_ok w0 ∧ timerInterval w0 = None ∧
  timerDisplayHidden w0 = true ∧ activeTimerBtn w0 = {[0]}.
Proof.
  intros Hok. destruct (stopAllSounds_unarmed w Hok) as (Hi & _ & Hok').
  destruct (stopAllSounds_page w) as (_ & Hh & Hb).
  revert Hi Hok' Hh Hb. generalize (stopAllSounds w). intros w1 Hi Hok' Hh Hb.
  by split_and!.
Qed.

(** X3.  Starting a sound cancels the sleep timer: after a click on a
    tile that is not playing, and after every commit, no countdown is
    stored or live, the timer display is hidden and the 0 button is the
    active one, whatever timer was armed before. *)
Theorem starting_cancels_timer (w : State) :
  timers_ok w →
  (∀ soundType, soundType ≠ "combo" → soundType ∉ playing w →
     timerInterval (clickTile soundType w) = None ∧
     ¬ armed (clickTile soundType w) ∧
     timerDisplayHidden (clickTile soundType w) = true ∧
     activeTimerBtn (clickTile soundType w) = {[0]}) ∧
  (∀ w', applyComboSettings w = Some w' →
     timerInterval w' = None ∧ ¬ armed w' ∧
     timerDisplayHidden w' = true ∧ activeTimerBtn w' = {[0]}).
Proof.
  intros Hok. destruct (torn_down_timer w Hok) as (Hok0 & Hi0 & Hh0 & Hb0).
  split.
  - intros soundType Hc Hp.
    pose proof (clickTile_timers_ok soundType w Hok) as Hok'.
    rewrite clickTile_tile, toggleSound_start in * by done.
    revert Hok0 Hi0 Hh0 Hb0 Hok'.
    generalize (set_playing ∅ (stopAllSounds w)). intros w0 Hok0 Hi0 Hh0 Hb0 Hok'.
    destruct (sound_frame_timer _ _ (playSound_frame soundType w0))
      as (Hi & Hh & Hb).
    revert Hi Hh Hb Hok'. generalize (playSound soundType w0).
    intros w1 Hi Hh Hb Hok'.
    assert (timerInterval (set_currentSound (Some soundType) w1) = None) as Hnone
      by (by rewrite <- Hi0, <- Hi).
    split_and!; [done| |by rewrite <- Hh0, <- Hh|by rewrite <- Hb0, <- Hb].
    by apply unarmed_not_armed.
  - intros w' He.
    pose proof (applyComboSettings_timers_ok w w' He Hok) as Hok'.
    apply applyComboSettings_Some in He
      as (white & brown & heartbeat & ocean & rain & snow & forest & lullaby
          & _ & ->).
    revert Hok0 Hi0 Hh0 Hb0 Hok'.
    generalize (set_playing ∅ (stopAllSounds w)).
    generalize (selectionOf white brown heartbeat ocean rain snow forest lullaby).
    intros sel w0 Hok0 Hi0 Hh0 Hb0 Hok'.
    assert (timerInterval (commitResult sel w0) = None ∧
            timerDisplayHidden (commitResult sel w0) = true ∧
            activeTimerBtn (commitResult sel w0) = {[0]}) as (Hi & Hh & Hb).
    { unfold commitResult. case_match.
      - destruct (playSounds_spec (selected sel) (set_comboSounds sel w0))
          as (_ & _ & Hf & _).
        apply sound_frame_timer in Hf as (Hi & Hh & Hb).
        revert Hi Hh Hb.
        generalize (foldl (λ w sound, playSound sound w)
                      (set_comboSounds sel w0) (selected sel)).
        intros w1 Hi Hh Hb.
        cbn [timerInterval timerDisplayHidden activeTimerBtn
             set_comboSettingsHidden set_comboSounds] in *.
        by rewrite Hi, Hh, Hb.
      - done. }
    split_and!; [done| |done|done]. by apply unarmed_not_armed.
Qed.

Lemma starting_cancels_timer_witness :
  timerInterval (setTimer 15 rainPlaying) = Some 2%positive ∧
  timerInterval (clickTile "ocean" (setTimer 15 rainPlaying)) = None.
Proof.
  split; [vm_compute; reflexivity|].
  destruct (starting_cancels_timer (setTimer 15 rainPlaying)) as [Hclick _].
  - apply setTimer_timers_ok, clickTile_timers_ok, constructor_timers_ok.
  - destruct (Hclick "ocean") as (Hi & _); [discriminate| |exact Hi].
    apply (bool_decide_unpack _). vm_compute. exact I.
Defined.

Lemma stopSound_frame_fields k w :
  timerInterval (stopSound k w) = timerInterval w ∧
  timers (stopSound k w) = timers w ∧
  timerEndTime (stopSound k w) = timerEndTime w ∧
  timerDisplayHidden (stopSound k w) = timerDisplayHidden w ∧
  activeTimerBtn (stopSound k w) = activeTimerBtn w ∧
  comboSounds (stopSound k w) = comboSounds w ∧
  currentSound (stopSound k w) = currentSound w ∧
  playing (stopSound k w) = playing w ∧
  tiles (stopSound k w) = tiles w.
Proof. rewrite stopSound_eq. by destruct (Obj.get k (activeSounds w)). Qed.

(** X4.  A click on a tile that is playing stops that category and
    nothing else: every other registry entry and every other playing
    mark stays, so the other members of a combination keep playing; the
    timer stays as it was; no generator is started. *)
Theorem toggle_off_stops_one (soundType : string) (w : State) :
  soundType ≠ "combo" → soundType ∈ playing w →
  let w' := clickTile soundType w in
  Obj.get soundType (activeSounds w') = None ∧
  (∀ k, k ≠ soundType →
     Obj.get k (activeSounds w') = Obj.get k (activeSounds w)) ∧
  playing w' = playing w ∖ {[soundType]} ∧
  timerInterval w' = timerInterval w ∧ timers w' = timers w ∧
  timerEndTime w' = timerEndTime w ∧
  started (trace w') = started (trace w).
Proof.
  intros Hc Hp. rewrite clickTile_tile, toggleSound_stop by done.
  destruct (stopSound_frame_fields soundType w)
    as (Hi & Ht & He & _ & _ & _ & _ & Hpl & _).
  pose proof (stopSound_activeSounds soundType w) as Ha.
  pose proof (stopSound_started soundType w) as Hs.
  revert Hi Ht He Ha Hs. generalize (stopSound soundType w).
  intros w1 Hi Ht He Ha Hs.
  cbn [activeSounds playing timerInterval timers timerEndTime trace set_playing].
  rewrite Ha. split_and!; try done.
  - apply get_del_eq.
  - intros k Hk. by apply get_del_ne.
Qed.

Lemma toggle_off_stops_one_witness :
  Obj.keys (activeSounds rainForestCommitted) = ["rain"; "forest"] ∧
  Obj.get "rain" (activeSounds (clickTile "rain" rainForestCommitted)) = None ∧
  Obj.get "forest" (activeSounds (clickTile "rain" rainForestCommitted))
  = Obj.get "forest" (activeSounds rainForestCommitted).
Proof.
  split; [vm_compute; reflexivity|].
  destruct (toggle_off_stops_one "rain" rainForestCommitted)
    as (Hgone & Hother & _).
  - discriminate.
  - apply (bool_decide_unpack _). vm_compute. exact I.
  - split; [exact Hgone|]. apply Hother. discriminate.
Defined.

(** ** Schedulers and the stepper *)

Lemma builder_rain : builder "rain" = Some playRain.
Proof. vm_compute. reflexivity. Qed.

Lemma builder_forest : builder "forest" = Some playForest.
Proof. vm_compute. reflexivity. Qed.


Lemma playSound_rain w :
  Obj.get "rain" (activeSounds (playSound "rain" w))
  = Some [Source "rainBase"; Stage "rainFilter"; Stage "compressor";
          Stage "rainGain"; IntervalId (nextTimer w)] ∧
  timers (playSound "rain" w) = <[nextTimer w := RaindropScheduler]> (timers w) ∧
  nextTimer (playSound "rain" w) = (nextTimer w + 1)%positive.
Proof.
  unfold playSound. rewrite builder_rain.
  destruct (suspended w); case_decide; simpl; by rewrite get_set_eq.
Qed.

Lemma playSound_forest w :
  Obj.get "forest" (activeSounds (playSound "forest" w))
  = Some [Source "forestBase"; Stage "forestFilter"; Stage "forestGain";
          IntervalId (nextTimer w); IntervalId (nextTimer w + 1)] ∧
  timers (playSound "forest" w)
  = <[(nextTimer w + 1)%positive := WindScheduler]>
      (<[nextTimer w := BirdScheduler]> (timers w)) ∧
  nextTimer (playSound "forest" w) = (nextTimer w + 1 + 1)%positive.
Proof.
  unfold playSound. rewrite builder_forest.
  destruct (suspended w); case_decide; simpl; by rewrite get_set_eq.
Qed.


Lemma fire_scheduler_live id category burst chance w nodes :
  fire id chance w = schedulerTick id category burst chance w →
  Obj.get category (activeSounds w) = Some nodes →
  fire id chance w = if chance then log (Transient burst) w else w.
Proof. intros -> Hget. unfold schedulerTick. by rewrite Hget. Qed.

Lemma fire_scheduler_stale id category burst chance w :
  fire id chance w = schedulerTick id category burst chance w →
  Obj.get category (activeSounds w) = None →
  fire id chance w = clearInterval id w.
Proof. intros -> Hget. unfold schedulerTick. by rewrite Hget. Qed.

Lemma fire_raindrops id chance w :
  timers w !! id = Some RaindropScheduler →
  fire id chance w = schedulerTick id "rain" "drop" chance w.
Proof. intros H. unfold fire. by rewrite H. Qed.

Lemma fire_birds id chance w :
  timers w !! id = Some BirdScheduler →
  fire id chance w = schedulerTick id "forest" "birdChirp" chance w.
Proof. intros H. unfold fire. by rewrite H. Qed.

Lemma fire_wind id chance w :
  timers w !! id = Some WindScheduler →
  fire id chance w = schedulerTick id "forest" "windRustle" chance w.
Proof. intros H. unfold fire. by rewrite H. Qed.

(** X5.  [stopSound] does not clear the schedulers of rain and forest:
    their interval ids stay live after the stop.  Each scheduler cancels
    itself at its next tick, when it finds its category gone, and
    launches nothing then; while the category is registered a tick
    launches one burst or none and changes nothing else. *)
Theorem schedulers_cancel_themselves (w : State) (chance : bool) :
  let id := nextTimer w in
  (let w1 := playSound "rain" w in
   let w2 := stopSound "rain" w1 in
   fire id chance w1 = (if chance then log (Transient "drop") w1 else w1) ∧
   timers w2 = timers w1 ∧ timers w2 !! id = Some RaindropScheduler ∧
   fire id chance w2 = clearInterval id w2) ∧
  (let w1 := playSound "forest" w in
   let w2 := stopSound "forest" w1 in
   let id' := (id + 1)%positive in
   fire id chance w1 = (if chance then log (Transient "birdChirp") w1 else w1) ∧
   fire id' chance w1 = (if chance then log (Transient "windRustle") w1 else w1) ∧
   timers w2 = timers w1 ∧
   timers w2 !! id = Some BirdScheduler ∧ timers w2 !! id' = Some WindScheduler ∧
   fire id chance w2 = clearInterval id w2 ∧
   fire id' chance w2 = clearInterval id' w2).
Proof.
  intros id. split; cbv zeta.
  - destruct (playSound_rain w) as (Hget & Ht & _). fold id in Hget, Ht.
    destruct (stopSound_frame_fields "rain" (playSound "rain" w))
      as (_ & Ht2 & _).
    pose proof (stopSound_activeSounds "rain" (playSound "rain" w)) as Ha2.
    revert Hget Ht Ht2 Ha2. generalize (playSound "rain" w).
    intros w1 Hget Ht Ht2 Ha2.
    assert (timers w1 !! id = Some RaindropScheduler) as Hid
      by (by rewrite Ht, lookup_insert_eq).
    assert (Obj.get "rain" (activeSounds (stopSound "rain" w1)) = None) as Hgone
      by (rewrite Ha2; apply get_del_eq).
    revert Ht2 Hgone. generalize (stopSound "rain" w1). intros w2 Ht2 Hgone.
    assert (timers w2 !! id = Some RaindropScheduler) as Hid2
      by (by rewrite Ht2).
    split_and!; [|done|done|].
    + eapply fire_scheduler_live; [by apply fire_raindrops|exact Hget].
    + by apply (fire_scheduler_stale _ "rain" "drop"); [apply fire_raindrops|].
  - destruct (playSound_forest w) as (Hget & Ht & _). fold id in Hget, Ht.
    destruct (stopSound_frame_fields "forest" (playSound "forest" w))
      as (_ & Ht2 & _).
    pose proof (stopSound_activeSounds "forest" (playSound "forest" w)) as Ha2.
    revert Hget Ht Ht2 Ha2. generalize (playSound "forest" w).
    intros w1 Hget Ht Ht2 Ha2.
    assert (timers w1 !! id = Some BirdScheduler) as Hid.
    { rewrite Ht, lookup_insert_ne, lookup_insert_eq; [done|lia]. }
    assert (timers w1 !! (id + 1)%positive = Some WindScheduler) as Hid'
      by (by rewrite Ht, lookup_insert_eq).
    assert (Obj.get "forest" (activeSounds (stopSound "forest" w1)) = None)
      as Hgone by (rewrite Ha2; apply get_del_eq).
    revert Ht2 Hgone. generalize (stopSound "forest" w1). intros w2 Ht2 Hgone.
    assert (timers w2 !! id = Some BirdScheduler) as Hid2 by (by rewrite Ht2).
    assert (timers w2 !! (id + 1)%positive = Some WindScheduler) as Hid2'
      by (by rewrite Ht2).
    split_and!; try done.
    + eapply fire_scheduler_live; [by apply fire_birds|exact Hget].
    + eapply fire_scheduler_live; [by apply fire_wind|exact Hget].
    + by apply (fire_scheduler_stale _ "forest" "birdChirp"); [apply fire_birds|].
    + by apply (fire_scheduler_stale _ "forest" "windRustle"); [apply fire_wind|].
Qed.

(** X6.  A sound restarted before its stale scheduler has ticked keeps
    that scheduler: after rain is stopped and started again, the old and
    the new raindrop scheduler are both live, the registry holds only the
    new one, and a tick of the old one finds rain registered, so it
    cancels nothing and may launch a drop. *)
Theorem restart_keeps_stale_scheduler (w : State) (chance : bool) :
  let id := nextTimer w in
  let id' := (id + 1)%positive in
  let w3 := playSound "rain" (stopSound "rain" (playSound "rain" w)) in
  timers w3 !! id = Some RaindropScheduler ∧
  timers w3 !! id' = Some RaindropScheduler ∧
  Obj.get "rain" (activeSounds w3)
  = Some [Source "rainBase"; Stage "rainFilter"; Stage "compressor";
          Stage "rainGain"; IntervalId id'] ∧
  fire id chance w3 = (if chance then log (Transient "drop") w3 else w3).
Proof.
  intros id id'. cbv zeta.
  destruct (playSound_rain w) as (_ & Ht1 & Hn1).
  destruct (stopSound_frame_fields "rain" (playSound "rain" w)) as (_ & Ht2 & _).
  assert (nextTimer (stopSound "rain" (playSound "rain" w)) = id') as Hn2.
  { rewrite stopSound_eq.
    destruct (Obj.get "rain" (activeSounds (playSound "rain" w))); exact Hn1. }
  destruct (playSound_rain (stopSound "rain" (playSound "rain" w)))
    as (Hget & Ht3 & _).
  rewrite Hn2 in Hget, Ht3. rewrite Ht2, Ht1 in Ht3. fold id in Ht3.
  revert Hget Ht3.
  generalize (playSound "rain" (stopSound "rain" (playSound "rain" w))).
  intros w3 Hget Ht3.
  assert (timers w3 !! id = Some RaindropScheduler) as Hid.
  { rewrite Ht3, lookup_insert_ne, lookup_insert_eq; [done|]. unfold id'. lia. }
  split_and!; [done|by rewrite Ht3, lookup_insert_eq|done|].
  eapply fire_scheduler_live; [by apply fire_raindrops|exact Hget].
Qed.


(** ** Invariants of whole sessions *)

Lemma timer_ui_ok_view w w' :
  timer_view w' = timer_view w → timer_ui_ok w → timer_ui_ok w'.
Proof. unfold timer_view, timer_ui_ok. intros [= -> -> ->]. done. Qed.

Lemma marks_ok_view w w' :
  marks_view w' = marks_view w → marks_ok w → marks_ok w'.
Proof. unfold marks_view, marks_ok. intros [= -> -> ->]. done. Qed.

Lemma registry_ok_view w w' :
  marks_view w' = marks_view w → registry_ok w → registry_ok w'.
Proof. unfold marks_view, registry_ok. intros [= _ _ ->]. done. Qed.

Lemma fire_views id chance w :
  (timer_view (fire id chance w) = timer_view w ∧
   marks_view (fire id chance w) = marks_view w) ∨
  fire id chance w
  = clearTimer (set_playing ∅ (stopAllSounds (updateTimerDisplay w))).
Proof.
  unfold fire, schedulerTick, playNextNote.
  destruct (timers w !! id) as [[]|]; [| | | | |by left].
  - unfold countdownTick. case_bool_decide; [by right|by left].
  - left. by destruct (Obj.get "rain" (activeSounds w)), chance.
  - left. by destruct (Obj.get "forest" (activeSounds w)), chance.
  - left. by destruct (Obj.get "forest" (activeSounds w)), chance.
  - left. cbn [activeSounds clearInterval set_timers].
    by destruct (Obj.get "lullaby" (activeSounds w)).
Qed.

Lemma clearTimer_views w :
  timer_ui_ok (clearTimer w) ∧ marks_view (clearTimer w) = marks_view w.
Proof.
  unfold timer_ui_ok, marks_view, clearTimer.
  destruct (timerInterval w) eqn:E; simpl; by rewrite ?E.
Qed.

Lemma torn_down_views w :
  let w0 := set_playing ∅ (stopAllSounds w) in
  timer_ui_ok w0 ∧ playing w0 = ∅ ∧ activeSounds w0 = [] ∧ tiles w0 = tiles w.
Proof.
  rewrite stopAllSounds_eq.
  generalize (trace w ++
    StopAll :: stopTrace (Obj.keys (activeSounds w)) (activeSounds w)).
  intros tr.
  destruct (clearTimer_views (set_activeSounds [] (set_trace tr w)))
    as (Hui & Hm).
  revert Hui Hm. generalize (clearTimer (set_activeSounds [] (set_trace tr w))).
  intros w1 Hui Hm. unfold marks_view in Hm. injection Hm as _ Htl Ha.
  cbv zeta. split_and!; [exact Hui|done|exact Ha|exact Htl].
Qed.

Lemma marks_ok_empty w : playing w = ∅ → activeSounds w = [] → marks_ok w.
Proof.
  intros Hp Ha k. rewrite Hp, Ha. split; [by intros ?%not_elem_of_empty|].
  by intros [_ [? ?]].
Qed.

Lemma registry_ok_empty w : activeSounds w = [] → registry_ok w.
Proof.
  intros Ha. unfold registry_ok. rewrite Ha. split; [apply NoDup_nil_2|].
  by intros k ?%elem_of_nil.
Qed.

Lemma playSound_views k w :
  timer_view (playSound k w) = timer_view w ∧ tiles (playSound k w) = tiles w.
Proof.
  pose proof (playSound_frame k w) as Hf. unfold sound_frame in Hf.
  destruct_and!. unfold timer_view. split; [|done]. congruence.
Qed.

Lemma unknown_playSound_noop_fields k w :
  builder k = None →
  activeSounds (playSound k w) = activeSounds w ∧
  playing (playSound k w) = playing w.
Proof.
  intros Hb. rewrite playSound_unknown by done. by destruct (suspended w).
Qed.

Lemma playSound_marks_ok k w : marks_ok w → marks_ok (playSound k w).
Proof.
  intros Hm. destruct (playSound_views k w) as (_ & Htl).
  destruct (builder k) as [play|] eqn:Hb.
  - destruct (playSound_spec k play w Hb) as (nodes & ? & Ha & _ & _ & Hp & _).
    intros j. rewrite Htl, Ha, Hp.
    destruct (decide (j = k)) as [->|Hne].
    + rewrite get_set_eq. case_decide as Hk.
      * split; [by intros _|]. intros _. by apply elem_of_union_l, elem_of_singleton.
      * split; [|by intros [? _]]. intros Hin. by apply Hm in Hin as [? _].
    + rewrite get_set_ne by done. rewrite <- (Hm j). case_decide; [|done].
      rewrite elem_of_union, elem_of_singleton.
      split; [by intros [?|?]|by right].
  - destruct (unknown_playSound_noop_fields k w Hb) as (Ha & Hp).
    intros j. by rewrite Htl, Ha, Hp.
Qed.

Lemma keys_set_old {V} k (v : V) o :
  k ∈ Obj.keys o → Obj.keys (Obj.set k v o) = Obj.keys o.
Proof.
  unfold Obj.keys. induction o as [|[k' v'] o IH]; [by intros ?%elem_of_nil|].
  rewrite fmap_cons. cbn [Obj.set fst]. intros Hin.
  destruct (decide (k = k')) as [->|Hne]; [done|].
  rewrite fmap_cons. cbn [fst]. f_equal. apply IH.
  by apply elem_of_cons in Hin as [?|?].
Qed.

Lemma keys_del {V} k (o : list (string * V)) :
  Obj.keys (Obj.del k o) = filter (λ k', k' ≠ k) (Obj.keys o).
Proof.
  unfold Obj.keys. induction o as [|[k' v'] o IH]; [done|].
  rewrite fmap_cons. cbn [Obj.del fst].
  destruct (decide (k = k')) as [->|Hne].
  - rewrite filter_cons_False by (by intros ?). exact IH.
  - rewrite filter_cons_True by done. rewrite fmap_cons. cbn [fst].
    by rewrite IH.
Qed.

Lemma playSound_registry_ok k w : registry_ok w → registry_ok (playSound k w).
Proof.
  intros [Hnd Hb]. destruct (builder k) as [play|] eqn:Hk.
  - destruct (playSound_spec k play w Hk) as (nodes & ? & Ha & _).
    unfold registry_ok. rewrite Ha.
    destruct (decide (k ∈ Obj.keys (activeSounds w))) as [Hin|Hnin].
    + by rewrite keys_set_old.
    + rewrite keys_set_new by done. split.
      * apply NoDup_app. split_and!; [done| |apply NoDup_singleton].
        intros j Hj ->%list_elem_of_singleton. done.
      * intros j [Hj| ->%list_elem_of_singleton]%elem_of_app; [by apply Hb|].
        by rewrite Hk.
  - destruct (unknown_playSound_noop_fields k w Hk) as (Ha & _).
    unfold registry_ok. by rewrite Ha.
Qed.

Lemma stopSound_views k w :
  timer_view (stopSound k w) = timer_view w ∧
  playing (stopSound k w) = playing w ∧ tiles (stopSound k w) = tiles w.
Proof.
  destruct (stopSound_frame_fields k w) as (Hi & _ & _ & Hh & Hb & _ & _ & Hp & Ht).
  unfold timer_view. by rewrite Hi, Hh, Hb.
Qed.

Lemma toggle_off_marks_ok k w :
  marks_ok w → marks_ok (set_playing (playing w ∖ {[k]}) (stopSound k w)).
Proof.
  intros Hm j. destruct (stopSound_views k w) as (_ & _ & Htl).
  pose proof (stopSound_activeSounds k w) as Ha.
  revert Htl Ha. generalize (stopSound k w). intros w1 Htl Ha.
  cbn [playing tiles activeSounds set_playing]. rewrite Htl, Ha.
  rewrite elem_of_difference, elem_of_singleton, (Hm j).
  destruct (decide (j = k)) as [->|Hne].
  - rewrite get_del_eq. split; [by intros [_ ?]|]. by intros [_ [? ?]].
  - rewrite get_del_ne by done. tauto.
Qed.

Lemma stopSound_registry_ok k w : registry_ok w → registry_ok (stopSound k w).
Proof.
  intros [Hnd Hb]. unfold registry_ok.
  rewrite stopSound_activeSounds, keys_del. split.
  - by apply NoDup_filter.
  - intros j [_ Hj]%list_elem_of_filter. by apply Hb.
Qed.

Lemma setTimer_views minutes w :
  timer_ui_ok (set_activeTimerBtn {[minutes]} (setTimer minutes w)) ∧
  marks_view (set_activeTimerBtn {[minutes]} (setTimer minutes w))
  = marks_view w.
Proof.
  destruct (clearTimer_views w) as (Hui & Hm).
  destruct (clearTimer_spec w) as (Hi & _).
  destruct (decide (minutes = 0)) as [->|Hne].
  - unfold setTimer. rewrite bool_decide_eq_true_2 by done.
    revert Hui Hm Hi. generalize (clearTimer w). intros w0 Hui Hm Hi.
    split; [|exact Hm]. unfold timer_ui_ok in *.
    cbn [timerInterval timerDisplayHidden activeTimerBtn set_activeTimerBtn
         set_timerDisplayHidden].
    by rewrite Hi.
  - rewrite setTimer_eq by done. cbv zeta.
    revert Hm. generalize (clearTimer w). intros w0 Hm. split; [done|exact Hm].
Qed.

Section invariant.
Variable P : State → Prop.
Hypothesis P_quiet :
  ∀ w w', timer_view w' = timer_view w → marks_view w' = marks_view w →
          P w → P w'.
Hypothesis P_torn : ∀ w, P (set_playing ∅ (stopAllSounds w)).
Hypothesis P_expired : ∀ w, P (clearTimer (set_playing ∅ (stopAllSounds w))).
Hypothesis P_play : ∀ k w, P w → P (playSound k w).
Hypothesis P_toggle_off :
  ∀ k w, P w → P (set_playing (playing w ∖ {[k]}) (stopSound k w)).
Hypothesis P_timer :
  ∀ minutes w, P w → P (set_activeTimerBtn {[minutes]} (setTimer minutes w)).

Lemma playSounds_keep ks w :
  P w → P (foldl (λ w sound, playSound sound w) w ks).
Proof.
  revert w. induction ks as [|k ks IH]; intros w Hw; [done|].
  cbn [foldl]. by apply IH, P_play.
Qed.

Lemma commitResult_keeps sel w : P (commitResult sel (set_playing ∅ (stopAllSounds w))).
Proof.
  pose proof (P_torn w) as Hw. revert Hw.
  generalize (set_playing ∅ (stopAllSounds w)). intros w0 Hw.
  assert (P (set_comboSounds sel w0)) as Hw1 by (by apply (P_quiet w0)).
  unfold commitResult. case_match.
  - apply (playSounds_keep (selected sel)) in Hw1. revert Hw1.
    generalize (foldl (λ w sound, playSound sound w)
                  (set_comboSounds sel w0) (selected sel)).
    intros w1 Hw1. by apply (P_quiet w1).
  - revert Hw1. generalize (set_comboSounds sel w0). intros w1 Hw1.
    by apply (P_quiet w1).
Qed.

Lemma perform_keeps a w : P w → P (perform a w).
Proof.
  intros Hw. destruct a as [[soundType|minutes|k]|]; cbn [perform step].
  - destruct (decide (soundType = "combo")) as [->|Hc].
    + unfold clickTile. rewrite decide_True by done. by apply (P_quiet w).
    + rewrite clickTile_tile by done.
      destruct (decide (soundType ∈ playing w)) as [Hp|Hp].
      * rewrite toggleSound_stop by done. by apply P_toggle_off.
      * rewrite toggleSound_start by done.
        pose proof (P_play soundType _ (P_torn w)) as Hplay. revert Hplay.
        generalize (playSound soundType (set_playing ∅ (stopAllSounds w))).
        intros w1 Hw1. by apply (P_quiet w1).
  - by apply P_timer.
  - unfold runTick.
    assert (P (set_now (at_time k) w)) as Hw0 by (by apply (P_quiet w)).
    revert Hw0. generalize (set_now (at_time k) w). intros w0 Hw0.
    destruct (fire_views (timer_id k) (random_hit k) w0) as [[Ht Hm]| ->].
    + by apply (P_quiet w0).
    + apply P_expired.
  - unfold clickApplyCombo.
    destruct (applyComboSettings w) as [w'|] eqn:He; [|apply P_torn].
    apply applyComboSettings_Some in He
      as (white & brown & heartbeat & ocean & rain & snow & forest & lullaby
          & _ & ->).
    apply commitResult_keeps.
Qed.

Lemma performAll_keeps actions w : P w → P (performAll actions w).
Proof.
  revert w. induction actions as [|a actions IH]; intros w Hw; [done|].
  cbn [performAll foldl]. by apply IH, perform_keeps.
Qed.
End invariant.

(** X8.  The timer display follows the timer: [clearTimer] leaves the
    display hidden and the 0 button active with no countdown stored, and
    from then on every tile click, timer button, timer callback and
    commit keeps it so that the display is shown exactly while a
    countdown is stored, and the 0 button is the active one while none
    is. *)
Theorem timer_display_follows_timer (actions : list action) (w : State) :
  timer_ui_ok (clearTimer w) ∧
  (timer_ui_ok w → timer_ui_ok (performAll actions w)).
Proof.
  split; [by destruct (clearTimer_views w)|].
  apply performAll_keeps.
  - intros w1 w2 Ht _. by apply timer_ui_ok_view.
  - intros w1. by destruct (torn_down_views w1).
  - intros w1. by destruct (clearTimer_views (set_playing ∅ (stopAllSounds w1))).
  - intros k w1. apply timer_ui_ok_view. by destruct (playSound_views k w1).
  - intros k w1. destruct (stopSound_views k w1) as (Ht & _). revert Ht.
    generalize (stopSound k w1). intros w2 Ht. by apply timer_ui_ok_view.
  - intros minutes w1 _. by destruct (setTimer_views minutes w1).
Qed.

Lemma timer_display_follows_timer_witness :
  timer_ui_ok
    (performAll [Intent (ClickTimer 15); Intent (ClickTile "rain"); ApplyCombo]
       freshMachine).
Proof.
  destruct (timer_display_follows_timer
              [Intent (ClickTimer 15); Intent (ClickTile "rain"); ApplyCombo]
              freshMachine) as [_ H].
  apply H. unfold timer_ui_ok. split; vm_compute; reflexivity.
Defined.

(** X9.  The playing marks follow the registry: through every tile
    click, timer button, timer callback and commit, a tile is marked
    playing exactly when its category is registered. *)
Theorem marks_follow_registry (actions : list action) (w : State) :
  marks_ok w → marks_ok (performAll actions w).
Proof.
  apply performAll_keeps.
  - intros w1 w2 _ Hm. by apply marks_ok_view.
  - intros w1. destruct (torn_down_views w1) as (_ & Hp & Ha & _).
    by apply marks_ok_empty.
  - intros w1. destruct (torn_down_views w1) as (_ & Hp & Ha & _).
    destruct (clearTimer_views (set_playing ∅ (stopAllSounds w1))) as (_ & Hm).
    eapply marks_ok_view; [exact Hm|]. by apply marks_ok_empty.
  - apply playSound_marks_ok.
  - apply toggle_off_marks_ok.
  - intros minutes w1. apply marks_ok_view. by destruct (setTimer_views minutes w1).
Qed.

Lemma marks_follow_registry_witness :
  marks_ok
    (performAll [Intent (ClickTile "rain"); ApplyCombo;
                 Intent (ClickTile "ocean")] rainForestTicked).
Proof.
  apply marks_follow_registry.
  intros k.
  assert (playing rainForestTicked = {["ocean"]}) as ->
    by (vm_compute; reflexivity).
  assert (activeSounds rainForestTicked
          = [("ocean", [Source "oceanBase"; Stage "oceanFilter";
                        Stage "waveGain"; Source "waveLFO";
                        Stage "waveModulationGain"])]) as ->
    by (vm_compute; reflexivity).
  rewrite elem_of_singleton. cbn [Obj.get]. split.
  - intros ->. split; [|by rewrite decide_True].
    apply (bool_decide_unpack _). vm_compute. exact I.
  - intros [_ Hk]. by destruct (decide (k = "ocean")) as [|]; [|destruct Hk].
Defined.

(** X10.  Through every tile click, timer button, timer
    callback and commit the registry holds each category at most once,
    and only categories that have a builder. *)
Theorem registry_holds_builders (actions : list action) (w : State) :
  registry_ok w → registry_ok (performAll actions w).
Proof.
  apply performAll_keeps.
  - intros w1 w2 _ Hm. by apply registry_ok_view.
  - intros w1. destruct (torn_down_views w1) as (_ & _ & Ha & _).
    by apply registry_ok_empty.
  - intros w1. destruct (torn_down_views w1) as (_ & _ & Ha & _).
    destruct (clearTimer_views (set_playing ∅ (stopAllSounds w1))) as (_ & Hm).
    eapply registry_ok_view; [exact Hm|]. by apply registry_ok_empty.
  - apply playSound_registry_ok.
  - intros k w1 Hr. apply (stopSound_registry_ok k) in Hr.
    destruct (stopSound_views k w1) as (_ & _ & _). revert Hr.
    generalize (stopSound k w1). intros w2 Hr. exact Hr.
  - intros minutes w1. apply registry_ok_view.
    by destruct (setTimer_views minutes w1).
Qed.

Lemma registry_holds_builders_witness :
  registry_ok
    (performAll [Intent (ClickTile "thunder"); ApplyCombo;
                 Intent (ClickTile "rain")] freshMachine).
Proof.
  apply registry_holds_builders. apply registry_ok_empty. reflexivity.
Defined.

Lemma perform_timers_ok a w : timers_ok w → timers_ok (perform a w).
Proof.
  intros Hok. destruct a as [i|]; cbn [perform]; [by apply step_timers_ok|].
  unfold clickApplyCombo.
  destruct (applyComboSettings w) as [w'|] eqn:He.
  - by apply (applyComboSettings_timers_ok w).
  - by destruct (torn_down_timer w Hok) as (? & _).
Qed.

(** X11.  At most one countdown is ever live: through every tile click,
    timer button, timer callback and commit, any countdown entry of the
    browser's timer table is the one stored in [timerInterval], so two
    live countdowns are the same one. *)
Theorem one_countdown_at_most (actions : list action) (w : State) :
  timers_ok w →
  timers_ok (performAll actions w) ∧
  ∀ i j, timers (performAll actions w) !! i = Some Countdown →
         timers (performAll actions w) !! j = Some Countdown →
         i = j ∧ timerInterval (performAll actions w) = Some i.
Proof.
  intros Hok.
  assert (timers_ok (performAll actions w)) as Hok'.
  { revert w Hok. induction actions as [|a actions IH]; intros w Hok; [done|].
    cbn [performAll foldl]. by apply IH, perform_timers_ok. }
  split; [done|]. destruct Hok' as [_ Hcd]. intros i j Hi Hj.
  apply Hcd in Hi, Hj. split; congruence.
Qed.

Lemma one_countdown_at_most_witness :
  timers_ok
    (performAll [Intent (ClickTimer 15); Intent (ClickTimer 30);
                 Intent (ClickTile "rain"); Intent (ClickTimer 60)]
       freshMachine).
Proof.
  apply one_countdown_at_most. apply constructor_timers_ok.
Defined.

(** ** More on the commit *)

Ltac in_comboNames :=
  unfold comboNames;
  repeat first [apply list_elem_of_here | apply list_elem_of_further].

(** X12.  A commit runs to its end exactly when the page has the eight
    check boxes it reads; if one of them is missing it ends in the
    [TypeError].  No other check box is needed. *)
Theorem commit_needs_eight_boxes (w : State) :
  is_Some (applyComboSettings w) ↔
  ∀ k, k ∈ comboNames → is_Some (checkboxes w !! ("combo-" +:+ k)).
Proof.
  split.
  - intros [w' He]. apply applyComboSettings_Some in He
      as (white & brown & heartbeat & ocean & rain & snow & forest & lullaby
          & (H1 & H2 & H3 & H4 & H5 & H6 & H7 & H8) & _).
    unfold comboNames. intros k Hk.
    repeat (apply elem_of_cons in Hk as [->|Hk]; [by eexists|]).
    by apply elem_of_nil in Hk.
  - intros Hall.
    assert (∀ k, k ∈ comboNames → ∃ b, checkboxes w !! ("combo-" +:+ k) = Some b)
      as Hb by (intros k Hk; apply Hall, Hk).
    destruct (Hb "white-noise") as [white H1]; [in_comboNames|].
    destruct (Hb "brown-noise") as [brown H2]; [in_comboNames|].
    destruct (Hb "heartbeat") as [heartbeat H3]; [in_comboNames|].
    destruct (Hb "ocean") as [ocean H4]; [in_comboNames|].
    destruct (Hb "rain") as [rain H5]; [in_comboNames|].
    destruct (Hb "snow") as [snow H6]; [in_comboNames|].
    destruct (Hb "forest") as [forest H7]; [in_comboNames|].
    destruct (Hb "lullaby") as [lullaby H8]; [in_comboNames|].
    eexists. apply applyComboSettings_Some.
    exists white, brown, heartbeat, ocean, rain, snow, forest, lullaby.
    split; [|reflexivity]. unfold boxesRead. by split_and!.
Qed.

Lemma commit_needs_eight_boxes_witness :
  is_Some (applyComboSettings rainTicked) ∧
  applyComboSettings noLullabyBox = None.
Proof.
  split.
  - apply commit_needs_eight_boxes. unfold comboNames. intros k Hk.
    repeat (apply elem_of_cons in Hk as [->|Hk];
            [eexists; vm_compute; reflexivity|]).
    by apply elem_of_nil in Hk.
  - destruct (applyComboSettings noLullabyBox) as [w'|] eqn:He; [|done].
    assert (is_Some (applyComboSettings noLullabyBox)) as Hsome
      by (by rewrite He).
    destruct (proj1 (commit_needs_eight_boxes noLullabyBox) Hsome "lullaby")
      as [b Hb]; [in_comboNames|].
    vm_compute in Hb. discriminate.
Defined.

Lemma commitResult_tiles sel w0 : tiles (commitResult sel w0) = tiles w0.
Proof.
  unfold commitResult. case_match; [|done].
  destruct (playSounds_spec (selected sel) (set_comboSounds sel w0))
    as (_ & _ & Hf & _).
  unfold sound_frame in Hf. destruct_and!.
  cbn [tiles set_comboSettingsHidden set_comboSounds] in *. congruence.
Qed.

Lemma commitResult_hidden sel w0 :
  selected sel ≠ [] → comboSettingsHidden (commitResult sel w0) = true.
Proof.
  intros Hsel. unfold commitResult. case_match eqn:Hany; [done|].
  by apply selected_none in Hany.
Qed.

(** X13.  A commit that finds its eight check boxes starts exactly the
    ticked categories, in the order white-noise, brown-noise, heartbeat,
    ocean, rain, snow, forest, lullaby, whatever was playing before:
    the registry keys are the ticked names in that order, the tiles
    marked playing are those of the ticked names, the selection holds
    the values read, and if at least one box is ticked the panel is
    hidden. *)
Theorem commit_starts_ticked (w : State)
    (white brown heartbeat ocean rain snow forest lullaby : bool) :
  boxesRead w white brown heartbeat ocean rain snow forest lullaby →
  let sel := selectionOf white brown heartbeat ocean rain snow forest lullaby in
  ∃ w', applyComboSettings w = Some w' ∧
        Obj.keys (activeSounds w') = selected sel ∧
        (∀ k, k ∈ playing w' ↔ k ∈ tiles w ∧ k ∈ selected sel) ∧
        comboSounds w' = sel ∧
        (selected sel ≠ [] → comboSettingsHidden w' = true).
Proof.
  intros Hb sel.
  destruct (commit_registry w _ _ _ _ _ _ _ _ Hb) as (w' & He & Hk).
  fold sel in Hk. exists w'. split; [done|].
  apply applyComboSettings_Some in He
    as (white' & brown' & heartbeat' & ocean' & rain' & snow' & forest'
        & lullaby' & Hb' & ->).
  assert (selectionOf white' brown' heartbeat' ocean' rain' snow' forest' lullaby'
          = sel) as Hsel.
  { destruct Hb as (H1 & H2 & H3 & H4 & H5 & H6 & H7 & H8).
    destruct Hb' as (H1' & H2' & H3' & H4' & H5' & H6' & H7' & H8').
    unfold sel. congruence. }
  rewrite Hsel in *.
  assert (marks_ok (commitResult sel (set_playing ∅ (stopAllSounds w)))) as Hm.
  { apply (commitResult_keeps marks_ok).
    - intros w1 w2 _ Hv. by apply marks_ok_view.
    - intros w1. destruct (torn_down_views w1) as (_ & Hp & Ha & _).
      by apply marks_ok_empty.
    - apply playSound_marks_ok. }
  split_and!; [done| |apply commitResult_comboSounds|apply commitResult_hidden].
  intros k. rewrite (Hm k), commitResult_tiles.
  destruct (torn_down_views w) as (_ & _ & _ & ->).
  rewrite <- Hk. split; intros [Ht Hr]; (split; [done|]).
  - destruct (decide (k ∈ Obj.keys
      (activeSounds (commitResult sel (set_playing ∅ (stopAllSounds w))))))
      as [|Hn]; [done|].
    apply get_keys in Hn. rewrite Hn in Hr. by destruct Hr.
  - destruct (Obj.get k
      (activeSounds (commitResult sel (set_playing ∅ (stopAllSounds w)))))
      eqn:E; [done|]. by apply get_keys in E.
Qed.

Lemma commit_starts_ticked_witness :
  ∃ w', applyComboSettings rainForestTicked = Some w' ∧
        Obj.keys (activeSounds w') = ["rain"; "forest"].
Proof.
  destruct (commit_starts_ticked rainForestTicked
              false false false false true false true false)
    as (w' & He & Hk & _).
  - unfold boxesRead. split_and!; vm_compute; reflexivity.
  - exists w'. split; [exact He|]. rewrite Hk. vm_compute. reflexivity.
Defined.

(** ** Cancelling a combination *)

Lemma stopCombo_loops w :
  stopCombo w
  = set_currentSound None
      (set_playing ∅
         (foldl uncheckStep
            (foldl stopSelectedStep w (Obj.keys (comboSounds w)))
            (Obj.keys
               (comboSounds
                  (foldl stopSelectedStep w (Obj.keys (comboSounds w))))))).
Proof. reflexivity. Qed.

Lemma stopSelected_eq ks w :
  foldl stopSelectedStep w ks
  = foldl (λ w soundType, stopSound soundType w) w
      (filter (λ k, Obj.get k (comboSounds w) = Some true) ks).
Proof.
  revert w. induction ks as [|k ks IH]; intros w; [done|]. cbn [foldl].
  assert (comboSounds (stopSound k w) = comboSounds w) as Hcs.
  { by destruct (stopSound_frame_fields k w) as (_&_&_&_&_&?&_). }
  assert (comboSounds (stopSelectedStep w k) = comboSounds w) as Hstep.
  { unfold stopSelectedStep. by destruct (Obj.get k (comboSounds w)) as [[]|]. }
  rewrite IH, Hstep. unfold stopSelectedStep.
  destruct (Obj.get k (comboSounds w)) as [[]|] eqn:E.
  - by rewrite filter_cons_True by done.
  - by rewrite filter_cons_False by congruence.
  - by rewrite filter_cons_False by congruence.
Qed.

Lemma uncheckStep_fields w k :
  activeSounds (uncheckStep w k) = activeSounds w ∧
  ∀ id, checkboxes (uncheckStep w k) !! id
        = if decide (id = "combo-" +:+ k)
          then (λ _, false) <$> checkboxes w !! id
          else checkboxes w !! id.
Proof.
  unfold uncheckStep.
  destruct (checkboxes w !! ("combo-" +:+ k)) as [b|] eqn:E;
    cbn [activeSounds checkboxes set_comboSounds set_checkboxes];
    (split; [done|]); intros id; case_decide as Hid; subst.
  - by rewrite lookup_insert_eq, E.
  - by rewrite lookup_insert_ne.
  - by rewrite E.
  - done.
Qed.

Lemma uncheck_fields ks w :
  activeSounds (foldl uncheckStep w ks) = activeSounds w ∧
  ∀ id, (checkboxes w !! id = Some false ∨
         (is_Some (checkboxes w !! id) ∧ ∃ k, k ∈ ks ∧ id = "combo-" +:+ k)) →
        checkboxes (foldl uncheckStep w ks) !! id = Some false.
Proof.
  revert w. induction ks as [|k ks IH]; intros w; cbn [foldl].
  - split; [done|]. intros id [?|(_ & k & Hk & _)]; [done|].
    by apply elem_of_nil in Hk.
  - destruct (IH (uncheckStep w k)) as (Ha & Hcb).
    destruct (uncheckStep_fields w k) as (Ha1 & Hcb1).
    split; [by rewrite Ha|].
    intros id Hid. apply Hcb. rewrite !Hcb1.
    destruct (decide (id = "combo-" +:+ k)) as [->|Hne].
    + left. destruct Hid as [->|([b ->] & _)]; done.
    + destruct Hid as [?|(? & k' & [->|?]%elem_of_cons & ?)];
        [by left|done|right; eauto].
Qed.

Lemma stopCombo_registry w :
  Obj.keys (activeSounds w) ⊆ selected (comboSounds w) →
  activeSounds (stopCombo w) = [].
Proof.
  intros Hsub. rewrite stopCombo_loops.
  cbn [activeSounds set_currentSound set_playing].
  destruct (uncheck_fields
              (Obj.keys (comboSounds
                 (foldl stopSelectedStep w (Obj.keys (comboSounds w)))))
              (foldl stopSelectedStep w (Obj.keys (comboSounds w))))
    as (-> & _).
  rewrite stopSelected_eq, stopSounds_eq.
  cbn [activeSounds set_activeSounds]. by apply del_all_keys.
Qed.

Lemma stopSelected_fields ks w :
  checkboxes (foldl stopSelectedStep w ks) = checkboxes w ∧
  comboSounds (foldl stopSelectedStep w ks) = comboSounds w.
Proof.
  revert w. induction ks as [|k ks IH]; intros w; [done|]. cbn [foldl].
  destruct (IH (stopSelectedStep w k)) as (-> & ->).
  unfold stopSelectedStep.
  destruct (Obj.get k (comboSounds w)) as [[]|]; try done.
  rewrite stopSound_eq. by destruct (Obj.get k (activeSounds w)).
Qed.

Lemma commitResult_checkboxes sel w :
  checkboxes (commitResult sel (set_playing ∅ (stopAllSounds w)))
  = checkboxes w.
Proof.
  destruct (stopAllSounds_spec w) as (_ & _ & _ & _ & _ & _ & _ & Hcb & _).
  revert Hcb. generalize (stopAllSounds w). intros w0 Hcb.
  unfold commitResult. case_match; [|exact Hcb].
  destruct (playSounds_spec (selected sel) (set_comboSounds sel (set_playing ∅ w0)))
    as (_ & _ & Hf & _).
  unfold sound_frame in Hf. destruct_and!.
  cbn [checkboxes set_comboSettingsHidden set_comboSounds set_playing] in *.
  congruence.
Qed.

Lemma unticked_selection white brown heartbeat ocean rain snow forest lullaby :
  foldl (λ o k, Obj.set k false o)
    (selectionOf white brown heartbeat ocean rain snow forest lullaby)
    comboNames
  = selectionOf false false false false false false false false.
Proof. vm_compute. reflexivity. Qed.

(** X14.  Cancelling undoes a commit: [stopCombo] right after a commit
    stops every category the commit started, so the registry is empty
    again; it unticks the eight check boxes, removes every playing mark,
    sets every key of the selection to false and forgets the current
    sound. *)
Theorem cancel_undoes_commit (w : State)
    (white brown heartbeat ocean rain snow forest lullaby : bool) :
  boxesRead w white brown heartbeat ocean rain snow forest lullaby →
  ∃ w', applyComboSettings w = Some w' ∧
        activeSounds (stopCombo w') = [] ∧
        playing (stopCombo w') = ∅ ∧
        currentSound (stopCombo w') = None ∧
        comboSounds (stopCombo w')
        = selectionOf false false false false false false false false ∧
        ∀ k, k ∈ comboNames →
             checkboxes (stopCombo w') !! ("combo-" +:+ k) = Some false.
Proof.
  intros Hb.
  destruct (commit_registry w _ _ _ _ _ _ _ _ Hb) as (w' & He & Hk).
  exists w'. split; [done|].
  apply applyComboSettings_Some in He
    as (white' & brown' & heartbeat' & ocean' & rain' & snow' & forest'
        & lullaby' & Hb' & ->).
  set (sel := selectionOf white' brown' heartbeat' ocean' rain' snow' forest'
                lullaby') in *.
  assert (selectionOf white brown heartbeat ocean rain snow forest lullaby = sel)
    as Hsel.
  { destruct Hb as (H1 & H2 & H3 & H4 & H5 & H6 & H7 & H8).
    destruct Hb' as (H1' & H2' & H3' & H4' & H5' & H6' & H7' & H8').
    unfold sel. congruence. }
  rewrite Hsel in Hk.
  pose proof (commitResult_comboSounds sel (set_playing ∅ (stopAllSounds w)))
    as Hcs.
  assert (∀ k, k ∈ comboNames →
               is_Some (checkboxes
                          (commitResult sel (set_playing ∅ (stopAllSounds w)))
                        !! ("combo-" +:+ k))) as Hboxes.
  { intros k Hin. rewrite commitResult_checkboxes.
    destruct Hb as (H1 & H2 & H3 & H4 & H5 & H6 & H7 & H8).
    unfold comboNames in Hin.
    repeat (apply elem_of_cons in Hin as [->|Hin]; [by eexists|]).
    by apply elem_of_nil in Hin. }
  revert Hk Hcs Hboxes.
  generalize (commitResult sel (set_playing ∅ (stopAllSounds w))).
  intros w' Hk Hcs Hboxes.
  split_and!.
  - apply stopCombo_registry. by rewrite Hk, Hcs.
  - by rewrite stopCombo_loops.
  - by rewrite stopCombo_loops.
  - unfold stopCombo. cbn [comboSounds set_currentSound set_playing].
    rewrite uncheck_comboSounds, !stopSelected_comboSounds, Hcs.
    apply unticked_selection.
  - intros k Hin. rewrite stopCombo_loops.
    cbn [checkboxes set_currentSound set_playing].
    destruct (stopSelected_fields (Obj.keys (comboSounds w')) w') as (Hcb & Hc).
    rewrite Hc. rewrite Hcs in *.
    apply uncheck_fields. right. rewrite Hcb. split; [by apply Hboxes|].
    exists k. split; [exact Hin|done].
Qed.

Lemma cancel_undoes_commit_witness :
  ∃ w', applyComboSettings rainForestTicked = Some w' ∧
        activeSounds (stopCombo w') = [] ∧
        checkboxes (stopCombo w') !! "combo-rain" = Some false.
Proof.
  destruct (cancel_undoes_commit rainForestTicked
              false false false false true false true false)
    as (w' & He & Ha & _ & _ & _ & Hcb).
  - unfold boxesRead. split_and!; vm_compute; reflexivity.
  - exists w'. split_and!; [exact He|exact Ha|]. apply (Hcb "rain").
    in_comboNames.
Defined.

(** ** Generators *)

(** X15.  Stopping a category stops exactly the generators that starting
    it started: for every category with a builder, the names of the
    generators started by [playSound] are, in the same order, the names
    of the generators stopped by the [stopSound] that follows. *)
Theorem stop_stops_what_start_started (C : string) (w : State) :
  is_Some (builder C) →
  ∃ names evs,
    trace (playSound C w)
    = trace w ++ (if suspended w then [Resume] else []) ++ (Start <$> names) ∧
    trace (stopSound C (playSound C w)) = trace (playSound C w) ++ evs ∧
    stopped evs = names ∧ started evs = [].
Proof.
  intros [play Hb].
  assert (∃ nodes, Obj.get C (activeSounds (playSound C w)) = Some nodes ∧
            trace (playSound C w)
            = trace w ++ (if suspended w then [Resume] else []) ++
                (Start <$> sources nodes)) as (nodes & Hget & Ht).
  { unfold playSound. rewrite Hb.
    destruct (builder_sources C play (if suspended w then log Resume w else w) Hb)
      as (nodes & Hget & Ht).
    exists nodes.
    assert (trace (if suspended w then log Resume w else w)
            = trace w ++ (if suspended w then [Resume] else [])) as Ht0.
    { destruct (suspended w); [done|]. by rewrite app_nil_r. }
    rewrite Ht0, <- app_assoc in Ht.
    revert Hget Ht. generalize (play (if suspended w then log Resume w else w)).
    intros w1 Hget Ht. by case_decide. }
  exists (sources nodes), (stopEvents nodes).
  split; [exact Ht|]. rewrite stopSound_eq, Hget.
  split_and!; [done|apply stopped_stopEvents|apply started_stopEvents].
Qed.

Lemma stop_stops_what_start_started_witness :
  ∃ names evs,
    trace (stopSound "heartbeat" (playSound "heartbeat" freshMachine))
    = trace (playSound "heartbeat" freshMachine) ++ evs ∧
    stopped evs = names ∧
    started (trace (playSound "heartbeat" freshMachine)) = names.
Proof.
  destruct (stop_stops_what_start_started "heartbeat" freshMachine)
    as (names & evs & Ht & Ht' & Hs & _).
  - eexists. vm_compute. reflexivity.
  - exists names, evs. split_and!; [exact Ht'|exact Hs|].
    rewrite Ht. clear. induction names as [|n names IH]; [done|].
    change (n :: started ([] ++ (Start <$> names)) = n :: names).
    by f_equal.
Defined.

(** ** Stopping everything *)

Lemma stopTrace_all (o : list (string * list node)) :
  NoDup (Obj.keys o) →
  stopTrace (Obj.keys o) o = o ≫= λ entry, stopEvents entry.2.
Proof.
  unfold Obj.keys. induction o as [|[k v] o IH]; [done|].
  rewrite fmap_cons, bind_cons. cbn [fst snd stopTrace Obj.get Obj.del].
  intros [Hk Hnd]%NoDup_cons. rewrite !decide_True by done.
  rewrite del_absent by (by apply get_keys). by rewrite IH.
Qed.

Lemma stopped_registry (o : list (string * list node)) :
  stopped (o ≫= λ entry, stopEvents entry.2) = o ≫= (λ entry, sources entry.2).
Proof.
  induction o as [|[k v] o IH]; [done|].
  by rewrite !bind_cons, stopped_app, stopped_stopEvents, IH.
Qed.

(** X16.  [stopAllSounds] stops everything that is registered and nothing
    else: on a registry without repeated keys it releases the handles of
    every entry, entry after entry in registration order, so the
    generators it stops are exactly the generators in the registry; the
    registry is empty afterwards and no generator is started. *)
Theorem stopAllSounds_stops_everything (w : State) :
  NoDup (Obj.keys (activeSounds w)) →
  trace (stopAllSounds w)
  = trace w ++ StopAll :: (activeSounds w ≫= λ entry, stopEvents entry.2) ∧
  stopped (StopAll :: (activeSounds w ≫= λ entry, stopEvents entry.2))
  = activeSounds w ≫= (λ entry, sources entry.2) ∧
  activeSounds (stopAllSounds w) = [] ∧
  started (trace (stopAllSounds w)) = started (trace w).
Proof.
  intros Hnd. destruct (stopAllSounds_spec w) as (Ha & Ht & _).
  rewrite Ht, stopTrace_all by done.
  split_and!; [done| |done|].
  - change (stopped (StopAll :: ?l)) with (stopped l).
    apply stopped_registry.
  - rewrite <- stopTrace_all, <- Ht by done. apply stopAllSounds_started.
Qed.

Lemma stopAllSounds_stops_everything_witness :
  stopped (drop (length (trace rainForestCommitted))
             (trace (stopAllSounds rainForestCommitted)))
  = ["rainBase"; "forestBase"].
Proof.
  destruct (stopAllSounds_stops_everything rainForestCommitted)
    as (Ht & Hs & _).
  - apply (bool_decide_unpack _). vm_compute. exact I.
  - rewrite Ht, drop_app_length, Hs. vm_compute. reflexivity.
Defined.
